(** * QuizGenerator (src/app.py): a shallow embedding and its properties

    The generation engine of the assignment and quiz generator is embedded
    function by function.  Python [str] values are Rocq [string]s whose
    characters are the code points U+0000..U+00FF; lists are [list]s; the
    question dictionary is a record; the [term_freq] dictionary is an
    association list in insertion order; the [random] module is a state
    threaded through the calls, and a Python exception is an outcome of the
    computation. *)

From Stdlib Require Import String Ascii List Bool Arith Lia.
From Stdlib Require Import Permutation Sorted FinFun.
Import ListNotations.
Open Scope list_scope.
Open Scope string_scope.

(** ** Python [str] primitives *)

Module PyStr.

Definition code (c : ascii) : nat := nat_of_ascii c.

Definition code_between (lo hi : nat) (c : ascii) : bool :=
  (lo <=? code c)%nat && (code c <=? hi)%nat.

Definition is_ascii_upper (c : ascii) : bool := code_between 65 90 c.
Definition is_ascii_lower (c : ascii) : bool := code_between 97 122 c.

(** The character class [[a-zA-Z]]. *)
Definition is_ascii_letter (c : ascii) : bool :=
  code_between 97 122 c || code_between 65 90 c.

Definition is_decimal (c : ascii) : bool := code_between 48 57 c.

(** [str.isalnum] on U+0080..U+00FF: the letters (feminine and masculine
    ordinal, micro sign, A-grave..O-diaeresis, O-stroke..o-diaeresis,
    o-stroke..y-diaeresis) and the numeric characters (superscripts one,
    two, three and the three vulgar fractions). *)
Definition is_latin1_alnum (c : ascii) : bool :=
  (code c =? 170)%nat || code_between 178 179 c || (code c =? 181)%nat
  || code_between 185 186 c || code_between 188 190 c
  || code_between 192 214 c || code_between 216 246 c
  || code_between 248 255 c.

(** The class [\w] of a [str] pattern: alphanumeric or underscore. *)
Definition is_word (c : ascii) : bool :=
  is_ascii_letter c || is_decimal c || (code c =? 95)%nat
  || is_latin1_alnum c.

(** [str.isspace]: what [strip()] removes. *)
Definition is_space (c : ascii) : bool :=
  code_between 9 13 c || code_between 28 32 c
  || (code c =? 133)%nat || (code c =? 160)%nat.

Definition lower_char (c : ascii) : ascii :=
  if is_ascii_upper c || code_between 192 214 c || code_between 216 222 c
  then ascii_of_nat (code c + 32)
  else c.

(** [s.lower()] *)
Fixpoint lower (s : string) : string :=
  match s with
  | EmptyString => EmptyString
  | String c s' => String (lower_char c) (lower s')
  end.

Fixpoint all_chars (p : ascii -> bool) (s : string) : bool :=
  match s with
  | EmptyString => true
  | String c s' => p c && all_chars p s'
  end.

Fixpoint lstrip (s : string) : string :=
  match s with
  | EmptyString => EmptyString
  | String c s' => if is_space c then lstrip s' else s
  end.

Fixpoint rstrip (s : string) : string :=
  match s with
  | EmptyString => EmptyString
  | String c s' =>
      match rstrip s' with
      | EmptyString => if is_space c then EmptyString else String c EmptyString
      | r => String c r
      end
  end.

(** [s.strip()] *)
Definition strip (s : string) : string := rstrip (lstrip s).

(** [s[:n]] *)
Definition slice_to (n : nat) (s : string) : string := substring 0 n s.

Definition starts_with (p : ascii -> bool) (s : string) : bool :=
  match s with
  | EmptyString => false
  | String c _ => p c
  end.

End PyStr.
Import PyStr.

(** ** The two regular expressions of the analyzer *)

Module Re.

Definition is_word_opt (o : option ascii) : bool :=
  match o with
  | Some c => is_word c
  | None => false
  end.

(** [\b] between two neighbouring positions; [None] is the outside of the
    string, which counts as a non-word character. *)
Definition word_boundary (l r : option ascii) : bool :=
  xorb (is_word_opt l) (is_word_opt r).

Definition peek (s : string) : option ascii :=
  match s with
  | EmptyString => None
  | String c _ => Some c
  end.

(** The tail [[a-zA-Z]*\b] of the pattern once a first letter [prev] has
    been taken: the number of further letters of the match.  The greedy
    branch (take one more letter) is tried first; when the rest of the
    pattern cannot match after it, the matcher backtracks and tries to
    close the match here. *)
Fixpoint match_letters (prev : ascii) (s : string) : option nat :=
  let close := if word_boundary (Some prev) (peek s) then Some 0 else None in
  match s with
  | EmptyString => close
  | String c s' =>
      if is_ascii_letter c then
        match match_letters c s' with
        | Some n => Some (S n)
        | None => close
        end
      else close
  end.

(** [re.findall(r'\b[a-zA-Z]+\b', s)], scanning left to right.  [prev] is
    the character before the current position and [skip] the number of
    characters still covered by the match just reported. *)
Fixpoint findall_from (skip : nat) (prev : option ascii) (s : string)
  : list string :=
  match s with
  | EmptyString => []
  | String c s' =>
      match skip with
      | S k => findall_from k (Some c) s'
      | O =>
          if word_boundary prev (Some c) && is_ascii_letter c then
            match match_letters c s' with
            | Some n => substring 0 (S n) s :: findall_from n (Some c) s'
            | None => findall_from 0 (Some c) s'
            end
          else findall_from 0 (Some c) s'
      end
  end.

Definition findall_words (s : string) : list string :=
  findall_from 0 None s.

(** The character class [[.!?]]. *)
Definition is_terminator (c : ascii) : bool :=
  (code c =? 46)%nat || (code c =? 33)%nat || (code c =? 63)%nat.

(** [re.split(r'[.!?]+', s)]: [piece] is the text since the last
    separator and [in_sep] tells that the previous character belonged to
    a separator, which the greedy [+] extends. *)
Fixpoint split_from (in_sep : bool) (piece : string) (s : string)
  : list string :=
  match s with
  | EmptyString => [piece]
  | String c s' =>
      if is_terminator c then
        if in_sep then split_from true EmptyString s'
        else piece :: split_from true EmptyString s'
      else split_from false (piece ++ String c EmptyString) s'
  end.

Definition split_terminators (s : string) : list string :=
  split_from false EmptyString s.

End Re.
Import Re.

(** ** TextAnalyzer *)

(** The set [stopwords], which the code only tests for membership. *)
Definition stopwords : list string :=
  ["the"; "a"; "an"; "and"; "or"; "but"; "in"; "on"; "at"; "to"; "for";
   "of"; "with"; "by"; "is"; "are"; "was"; "were"; "be"; "been"; "being";
   "have"; "has"; "had"; "do"; "does"; "did"; "will"; "would"; "could";
   "should"; "may"; "might"; "must"; "can"; "this"; "that"; "these"; "those"].

Definition in_stopwords (word : string) : bool :=
  existsb (String.eqb word) stopwords.

(** [term_freq]: a dictionary keeps its keys in the order they were first
    inserted; assigning to a key that is present keeps its place. *)
Definition dict := list (string * nat).

Fixpoint dict_get (d : dict) (k : string) (default : nat) : nat :=
  match d with
  | [] => default
  | (k', v) :: d' => if String.eqb k' k then v else dict_get d' k default
  end.

Fixpoint dict_set (d : dict) (k : string) (v : nat) : dict :=
  match d with
  | [] => [(k, v)]
  | (k', v') :: d' =>
      if String.eqb k' k then (k', v) :: d' else (k', v') :: dict_set d' k v
  end.

(** [x] goes in front of the first item whose count is not larger. *)
Fixpoint insert_desc (x : string * nat) (l : dict) : dict :=
  match l with
  | [] => [x]
  | y :: l' =>
      if (snd x <? snd y)%nat then y :: insert_desc x l' else x :: y :: l'
  end.

(** [sorted(items, key=lambda x: x[1], reverse=True)]: a stable sort, the
    larger counts first; items of equal count keep their order. *)
Fixpoint sorted_desc (l : dict) : dict :=
  match l with
  | [] => []
  | x :: l' => insert_desc x (sorted_desc l')
  end.

Definition words_of (text : string) : list string :=
  findall_words (lower text).

Definition keep_word (word : string) : bool :=
  negb (in_stopwords word) && (3 <? String.length word)%nat.

Definition count_terms (key_terms : list string) : dict :=
  fold_left (fun term_freq term =>
               dict_set term_freq term (dict_get term_freq term 0 + 1))
            key_terms [].

Definition extract_key_terms (text : string) : list string :=
  let words := words_of text in
  let key_terms := filter keep_word words in
  let term_freq := count_terms key_terms in
  let sorted_terms := sorted_desc term_freq in
  map fst (firstn 10 sorted_terms).

Definition extract_sentences (text : string) : list string :=
  let sentences := split_terminators text in
  map strip (filter (fun s => (10 <? String.length (strip s))%nat) sentences).

(** ** Exceptions, subscripts and [str.format] *)

Inductive exn : Type := IndexError | ValueError.

Inductive outcome (A : Type) : Type :=
| Returns (a : A)
| Raises (e : exn).
Arguments Returns {A} a.
Arguments Raises {A} e.

(** [l[i]] *)
Definition getitem {A} (l : list A) (i : nat) : outcome A :=
  match nth_error l i with
  | Some a => Returns a
  | None => Raises IndexError
  end.

(** [l[i] = v] *)
Fixpoint setitem {A} (l : list A) (i : nat) (v : A) : outcome (list A) :=
  match l, i with
  | [], _ => Raises IndexError
  | _ :: l', O => Returns (v :: l')
  | a :: l', S i' =>
      match setitem l' i' v with
      | Returns r => Returns (a :: r)
      | Raises e => Raises e
      end
  end.

(** [l.index(x)] *)
Fixpoint list_index (l : list string) (x : string) : outcome nat :=
  match l with
  | [] => Raises ValueError
  | y :: l' =>
      if String.eqb y x then Returns 0
      else match list_index l' x with
           | Returns i => Returns (S i)
           | Raises e => Raises e
           end
  end.

(** [template.format(arg)] with one positional argument, for templates
    whose replacement fields are all the automatic field [{}]: the first
    field takes the argument, a second one has no argument left, doubled
    braces are literal braces and a single brace is a malformed template. *)
Fixpoint format_from (used : bool) (template arg : string) : outcome string :=
  match template with
  | EmptyString => Returns EmptyString
  | String c rest =>
      let literal (ch : ascii) (tail : string) :=
        match format_from used tail arg with
        | Returns r => Returns (String ch r)
        | Raises e => Raises e
        end in
      if Ascii.eqb c "{" then
        match rest with
        | String c' rest' =>
            if Ascii.eqb c' "}" then
              if used then Raises IndexError
              else match format_from true rest' arg with
                   | Returns r => Returns (arg ++ r)
                   | Raises e => Raises e
                   end
            else if Ascii.eqb c' "{" then literal c rest'
            else Raises ValueError
        | EmptyString => Raises ValueError
        end
      else if Ascii.eqb c "}" then
        match rest with
        | String c' rest' =>
            if Ascii.eqb c' "}" then literal c rest' else Raises ValueError
        | EmptyString => Raises ValueError
        end
      else literal c rest
  end.

Definition format (template arg : string) : outcome string :=
  format_from false template arg.

(** ** QuizGenerator *)

Record QuestionRecord : Type := {
  question : string;
  options : list string;
  correct_answer : nat;
  explanation : string
}.

Definition assignment_templates : list string :=
  ["Analyze the main themes in the following content: {}";
   "Discuss the key concepts and their relationships in: {}";
   "Evaluate the arguments presented in: {}";
   "Compare and contrast different viewpoints on: {}";
   "Explain the significance and implications of: {}";
   "Critically examine the evidence presented for: {}";
   "Describe the process or methodology outlined in: {}";
   "Assess the strengths and weaknesses of: {}"].

Definition extract_main_subject (text : string) : string :=
  match extract_key_terms text with
  | top :: _ => "the concept of " ++ top
  | [] => "the given content"
  end.

(** The truth value of [topic]: [None] and the empty string are false. *)
Definition truthy (topic : option string) : bool :=
  match topic with
  | Some t => negb (String.eqb t EmptyString)
  | None => false
  end.

(** [topic if topic else self.extract_main_subject(text)], the subject of
    [generate_assignments]. *)
Definition resolve_subject (text : string) (topic : option string) : string :=
  match topic with
  | Some t => if truthy topic then t else extract_main_subject text
  | None => extract_main_subject text
  end.

Definition definition_question (term : string) : string :=
  "What is the main focus regarding '" ++ term ++ "' in the text?".
Definition definition_correct_answer (term : string) : string :=
  "The text discusses " ++ term ++ " in the context provided".
Definition definition_options (term : string) : list string :=
  [definition_correct_answer term;
   term ++ " is completely unrelated to the main topic";
   term ++ " is mentioned only in passing without significance";
   "The text contradicts common understanding of " ++ term].
Definition definition_explanation (term : string) : string :=
  "The correct answer focuses on how " ++ term ++ " relates to the main content.".

Definition comprehension_question : string :=
  "According to the text, which statement is most accurate?".
Definition comprehension_correct_answer (sentence : string) : string :=
  "The text mentions: " ++ slice_to 50 sentence ++ "...".
Definition comprehension_options (sentence : string) : list string :=
  [comprehension_correct_answer sentence;
   "The text primarily focuses on historical events";
   "The content is mainly theoretical without practical application";
   "The text contradicts established principles in the field"].
Definition comprehension_explanation : string :=
  "This option best reflects the content mentioned in the text.".

Definition create_inference_question
    (sentences key_terms : list string) : QuestionRecord :=
  {| question := "What can be inferred from the overall content?";
     options :=
       ["The content provides informative material on the topic";
        "The text is purely fictional with no factual basis";
        "The content contradicts all established knowledge";
        "The text is primarily focused on entertainment"];
     correct_answer := 0;
     explanation :=
       "This inference is most reasonable based on the informative nature of the content." |}.

Definition create_fallback_question (sentences : list string) : QuestionRecord :=
  {| question := "What is the primary characteristic of the provided text?";
     options :=
       ["It contains informative content";
        "It is completely empty";
        "It consists only of numbers";
        "It is written in a foreign language"];
     correct_answer := 0;
     explanation := "The text provides information that can be analyzed." |}.

(** *** The part that draws random numbers

    The [random] module is not part of the repository.  Its three entry
    points are embedded as the standard library writes them, over the one
    primitive they share: [randbelow n], which returns an integer below [n]
    and advances the generator. *)

Section RandomSource.

Variable rng : Type.
Variable randbelow : nat -> rng -> nat * rng.

Definition M (A : Type) : Type := rng -> outcome (A * rng).

Definition ret {A} (a : A) : M A := fun g => Returns (a, g).

Definition bind {A B} (m : M A) (k : A -> M B) : M B :=
  fun g =>
    match m g with
    | Returns (a, g') => k a g'
    | Raises e => Raises e
    end.

Definition lift {A} (o : outcome A) : M A :=
  fun g =>
    match o with
    | Returns a => Returns (a, g)
    | Raises e => Raises e
    end.

Definition draw (n : nat) : M nat := fun g => Returns (randbelow n g).

Notation "x <- m ;; k" := (bind m (fun x => k))
  (at level 61, m at next level, right associativity).

(** [random.choice(seq)] *)
Definition choice {A} (seq : list A) : M A :=
  match seq with
  | [] => lift (Raises IndexError)
  | _ :: _ => j <- draw (List.length seq) ;; lift (getitem seq j)
  end.

(** [x[i], x[j] = x[j], x[i]] *)
Definition swap {A} (x : list A) (i j : nat) : outcome (list A) :=
  match getitem x j with
  | Raises e => Raises e
  | Returns xj =>
      match getitem x i with
      | Raises e => Raises e
      | Returns xi =>
          match setitem x i xj with
          | Raises e => Raises e
          | Returns x' => setitem x' j xi
          end
      end
  end.

(** The loop of [random.shuffle(x)]:
    [for i in reversed(range(1, len(x))): j = randbelow(i + 1); swap]. *)
Fixpoint shuffle_loop {A} (i : nat) (x : list A) : M (list A) :=
  match i with
  | O => ret x
  | S i' =>
      j <- draw (i + 1) ;;
      x' <- lift (swap x i j) ;;
      shuffle_loop i' x'
  end.

Definition shuffle {A} (x : list A) : M (list A) :=
  shuffle_loop (List.length x - 1) x.

(** The loop of [random.sample(population, k)] on a population of at most
    21 items, where the selection works on a copy [pool] of the
    population: [for i in range(k): j = randbelow(n - i);
    result[i] = pool[j]; pool[j] = pool[n - i - 1]].  [live] is [n - i].
    The program samples the pool of 8 templates only; the branch that the
    library takes for larger populations is not embedded. *)
Fixpoint sample_loop {A} (k live : nat) (pool : list A) : M (list A) :=
  match k with
  | O => ret []
  | S k' =>
      j <- draw live ;;
      picked <- lift (getitem pool j) ;;
      moved <- lift (getitem pool (live - 1)) ;;
      pool' <- lift (setitem pool j moved) ;;
      others <- sample_loop k' (live - 1) pool' ;;
      ret (picked :: others)
  end.

Definition sample {A} (population : list A) (k : nat) : M (list A) :=
  if (k <=? List.length population)%nat
  then sample_loop k (List.length population) population
  else lift (Raises ValueError).

(** A [for] loop that appends one result per item. *)
Fixpoint for_each {A B} (f : A -> M B) (items : list A) : M (list B) :=
  match items with
  | [] => ret []
  | a :: items' => b <- f a ;; bs <- for_each f items' ;; ret (b :: bs)
  end.

Definition generate_assignments (text : string) (topic : option string)
  : M (list string) :=
  let subject := resolve_subject text topic in
  selected_templates <- sample assignment_templates 2 ;;
  for_each (fun template => lift (format template subject)) selected_templates.

Definition create_definition_question
    (sentences key_terms : list string) : M QuestionRecord :=
  match key_terms with
  | [] => ret (create_fallback_question sentences)
  | _ :: _ =>
      term <- choice (firstn 5 key_terms) ;;
      let correct_answer := definition_correct_answer term in
      options <- shuffle (definition_options term) ;;
      correct_index <- lift (list_index options correct_answer) ;;
      ret {| question := definition_question term;
             options := options;
             correct_answer := correct_index;
             explanation := definition_explanation term |}
  end.

Definition create_comprehension_question
    (sentences key_terms : list string) : M QuestionRecord :=
  match sentences with
  | [] => ret (create_fallback_question sentences)
  | _ :: _ =>
      sentence <- choice (firstn 3 sentences) ;;
      let correct_answer := comprehension_correct_answer sentence in
      options <- shuffle (comprehension_options sentence) ;;
      correct_index <- lift (list_index options correct_answer) ;;
      ret {| question := comprehension_question;
             options := options;
             correct_answer := correct_index;
             explanation := comprehension_explanation |}
  end.

Definition question_types
  : list (list string -> list string -> M QuestionRecord) :=
  [create_definition_question;
   create_comprehension_question;
   fun sentences key_terms =>
     ret (create_inference_question sentences key_terms)].

Definition create_question
    (sentences key_terms : list string) (question_num : nat)
  : M QuestionRecord :=
  match nth_error question_types
                  (question_num mod List.length question_types) with
  | Some question_type => question_type sentences key_terms
  | None => lift (Raises IndexError)
  end.

Definition generate_quiz_questions (text : string) : M (list QuestionRecord) :=
  let sentences := extract_sentences text in
  let key_terms := extract_key_terms text in
  for_each (create_question sentences key_terms) (seq 0 3).

End RandomSource.

Arguments ret {rng A} a.
Arguments bind {rng A B} m k.
Arguments lift {rng A} o.
Arguments draw {rng} randbelow n.
Arguments choice {rng} randbelow {A} seq.
Arguments swap {A} x i j.
Arguments shuffle_loop {rng} randbelow {A} i x.
Arguments shuffle {rng} randbelow {A} x.
Arguments sample_loop {rng} randbelow {A} k live pool.
Arguments sample {rng} randbelow {A} population k.
Arguments for_each {rng A B} f items.
Arguments generate_assignments {rng} randbelow text topic.
Arguments create_definition_question {rng} randbelow sentences key_terms.
Arguments create_comprehension_question {rng} randbelow sentences key_terms.
Arguments question_types {rng} randbelow.
Arguments create_question {rng} randbelow sentences key_terms question_num.
Arguments generate_quiz_questions {rng} randbelow text.

(** A replayable random source: a tape of raw draws, each reduced to the
    requested range; an exhausted tape answers 0. *)
Definition tape := list nat.
Definition tape_randbelow (n : nat) (g : tape) : nat * tape :=
  match g with
  | [] => (0, [])
  | r :: g' => (r mod n, g')
  end.

(** The scoring loop of [main]:
    [for i, (user_ans, q) in enumerate(zip(user_answers, quiz_questions)):
       if user_ans == q['correct_answer']: score += 1], from [score = 0]. *)
Definition quiz_score (user_answers : list nat)
    (quiz_questions : list QuestionRecord) : nat :=
  fold_left (fun score pair =>
               if (fst pair =? correct_answer (snd pair))%nat
               then score + 1 else score)
            (combine user_answers quiz_questions) 0.

(** * Vocabulary of the statements *)

Fixpoint take_while (p : ascii -> bool) (s : string) : string :=
  match s with
  | EmptyString => EmptyString
  | String c s' => if p c then String c (take_while p s') else EmptyString
  end.

Fixpoint drop_while (p : ascii -> bool) (s : string) : string :=
  match s with
  | EmptyString => EmptyString
  | String c s' => if p c then drop_while p s' else s
  end.

Fixpoint drop (n : nat) (s : string) : string :=
  match n, s with
  | O, _ => s
  | S n', EmptyString => EmptyString
  | S n', String _ s' => drop n' s'
  end.

(** The maximal runs of characters of the class [p], left to right. *)
Fixpoint runs (p : ascii -> bool) (s : string) : list string :=
  match s with
  | EmptyString => []
  | String c s' =>
      if p c then
        if starts_with p s' then
          match runs p s' with
          | r :: rs => String c r :: rs
          | [] => [String c EmptyString]
          end
        else String c EmptyString :: runs p s'
      else runs p s'
  end.

(** The tokenization as the specification words it: the maximal runs of
    ASCII letters of the lowercased text. *)
Definition letter_runs (text : string) : list string :=
  runs is_ascii_letter (lower text).

(** The position of the first occurrence of [x] in [l]. *)
Fixpoint first_pos (l : list string) (x : string) : nat :=
  match l with
  | [] => 0
  | y :: l' => if String.eqb y x then 0 else S (first_pos l' x)
  end.

(** The distinct elements of [l], each at its first occurrence. *)
Fixpoint dedup (l : list string) : list string :=
  match l with
  | [] => []
  | x :: l' => x :: remove string_dec x (dedup l')
  end.

(** The dictionary that the counting loop builds: the distinct terms in
    the order they first occur, each with its number of occurrences. *)
Definition tally (l : list string) : dict :=
  map (fun t => (t, count_occ string_dec l t)) (dedup l).

(** The order of the sorted dictionary: the larger count first, and among
    equal counts the smaller [rank] first. *)
Definition before (rank : string * nat -> nat) (p q : string * nat) : Prop :=
  snd q < snd p \/ (snd p = snd q /\ rank p < rank q).

(** The number of times [term] occurs among the tokens of [text], and the
    position of its first occurrence among them. *)
Definition frequency (text term : string) : nat :=
  count_occ string_dec (words_of text) term.

Definition first_occurrence (text term : string) : nat :=
  first_pos (words_of text) term.

Definition not_terminator (c : ascii) : bool := negb (is_terminator c).

Definition nonempty (s : string) : bool := negb (String.eqb s EmptyString).

Fixpoint last_char (s : string) : option ascii :=
  match s with
  | EmptyString => None
  | String c s' =>
      match s' with
      | EmptyString => Some c
      | String _ _ => last_char s'
      end
  end.

Definition is_space_opt (o : option ascii) : bool :=
  match o with
  | Some c => is_space c
  | None => false
  end.

(** No whitespace at either end. *)
Definition trimmed (s : string) : Prop :=
  is_space_opt (peek s) = false /\ is_space_opt (last_char s) = false.

(** The contract of [randbelow]: an integer below its argument. *)
Definition in_range {rng} (randbelow : nat -> rng -> nat * rng) : Prop :=
  forall n g, 0 < n -> fst (randbelow n g) < n.

(** [answer] is the option that the correct index of [q] points at, and
    that index is the one [index] finds for [answer] in the options. *)
Definition located (q : QuestionRecord) (answer : string) : Prop :=
  nth_error (options q) (correct_answer q) = Some answer
  /\ list_index (options q) answer = Returns (correct_answer q).

(** The answers that the two fixed records designate: the option listed
    first, with the index 0. *)
Definition fallback_correct_answer : string := "It contains informative content".
Definition inference_correct_answer : string :=
  "The content provides informative material on the topic".

(** What the Definition strategy returns on the ranking [key_terms]. *)
Definition definition_record (key_terms : list string) (q : QuestionRecord)
  : Prop :=
  match key_terms with
  | [] => q = create_fallback_question []
  | _ :: _ =>
      exists term,
        In term (firstn 5 key_terms)
        /\ question q = definition_question term
        /\ explanation q = definition_explanation term
        /\ Permutation (definition_options term) (options q)
        /\ located q (definition_correct_answer term)
  end.

(** What the Comprehension strategy returns on [sentences]. *)
Definition comprehension_record (sentences : list string) (q : QuestionRecord)
  : Prop :=
  match sentences with
  | [] => q = create_fallback_question []
  | _ :: _ =>
      exists sentence,
        In sentence (firstn 3 sentences)
        /\ question q = comprehension_question
        /\ explanation q = comprehension_explanation
        /\ Permutation (comprehension_options sentence) (options q)
        /\ located q (comprehension_correct_answer sentence)
  end.

Definition contains (s sub : string) : Prop :=
  exists pre post, s = pre ++ sub ++ post.

(** The value that a computation returns, without the generator. *)
Definition output {A rng} (o : outcome (A * rng)) : outcome A :=
  match o with
  | Returns (a, _) => Returns a
  | Raises e => Raises e
  end.

Definition cats : string := "Cats are nice. Cats are furry animals that purr.".

(** A record that the display and the export of [main] can show: four
    options, no two alike, and a correct index that is one of [0..3]. *)
Definition well_formed (q : QuestionRecord) : Prop :=
  List.length (options q) = 4
  /\ NoDup (options q)
  /\ correct_answer q < 4.

(** Three draws for the shuffle of four options that leave the first
    option at position [k]. *)
Definition places (k : nat) : tape :=
  match k with
  | 0 => [3; 2; 1]
  | 1 => [3; 2; 0]
  | 2 => [3; 0; 1]
  | _ => [0; 2; 1]
  end.

Definition twelve_words : string :=
  "alpha bravo charlie delta echo foxtrot golf hotel india juliet kilo lima".

(** * Properties *)

(** ** Characters and strings *)

Ltac each_char c := destruct c as [[] [] [] [] [] [] [] []]; vm_compute.

Lemma lower_char_letter c :
  is_ascii_letter (lower_char c) = true -> is_ascii_lower (lower_char c) = true.
Proof. each_char c; intros H; solve [reflexivity | discriminate H]. Qed.

Lemma letter_is_word c : is_ascii_letter c = true -> is_word c = true.
Proof. unfold is_word. intros ->. reflexivity. Qed.

Lemma all_chars_lower_letter s :
  all_chars is_ascii_letter (lower s) = true ->
  all_chars is_ascii_lower (lower s) = true.
Proof.
  induction s as [|c s IH]; simpl; [reflexivity|].
  intros H. apply andb_true_iff in H as [Hc Hs].
  now rewrite (lower_char_letter _ Hc), IH.
Qed.

Lemma length_append (s1 s2 : string) :
  String.length (s1 ++ s2) = String.length s1 + String.length s2.
Proof. induction s1 as [|c s1 IH]; simpl; [reflexivity|now rewrite IH]. Qed.

Lemma append_nil_r (s : string) : s ++ "" = s.
Proof. induction s as [|c s IH]; simpl; [reflexivity|now rewrite IH]. Qed.

Lemma append_assoc (s1 s2 s3 : string) : (s1 ++ s2) ++ s3 = s1 ++ (s2 ++ s3).
Proof. induction s1 as [|c s1 IH]; simpl; [reflexivity|now rewrite IH]. Qed.

Lemma append_inj_r (s s1 s2 : string) : s ++ s1 = s ++ s2 -> s1 = s2.
Proof.
  induction s as [|c s IH]; simpl; [trivial|].
  intros H. injection H as H. auto.
Qed.

Lemma append_inj_l (s1 s2 s : string) : s1 ++ s = s2 ++ s -> s1 = s2.
Proof.
  revert s2. induction s1 as [|c s1 IH]; intros [|c2 s2] H; simpl in H.
  - reflexivity.
  - apply (f_equal String.length) in H. simpl in H.
    rewrite length_append in H. lia.
  - apply (f_equal String.length) in H. simpl in H.
    rewrite length_append in H. lia.
  - injection H as -> H. f_equal. auto.
Qed.

Lemma all_chars_append p (s1 s2 : string) :
  all_chars p (s1 ++ s2) = all_chars p s1 && all_chars p s2.
Proof.
  induction s1 as [|c s1 IH]; simpl; [reflexivity|].
  now rewrite IH, andb_assoc.
Qed.

Lemma all_chars_substring p n s :
  all_chars p s = true -> all_chars p (substring 0 n s) = true.
Proof.
  revert n. induction s as [|c s IH]; intros [|n]; simpl; trivial.
  intros H. apply andb_true_iff in H as [-> Hs]. simpl. auto.
Qed.

Lemma length_substring n s :
  n <= String.length s -> String.length (substring 0 n s) = n.
Proof.
  revert n. induction s as [|c s IH]; intros [|n]; simpl; trivial; try lia.
  intros H. rewrite IH; lia.
Qed.

(** ** The tokenizer *)

(** What a successful match of [[a-zA-Z]*\b] has read. *)
Lemma match_letters_spec prev s n :
  match_letters prev s = Some n ->
  n <= String.length s /\
  all_chars is_ascii_letter (substring 0 n s) = true.
Proof.
  revert prev n. induction s as [|c s IH]; intros prev n; simpl.
  - destruct (word_boundary _ _); [|discriminate].
    intros [= <-]. split; [lia|reflexivity].
  - destruct (is_ascii_letter c) eqn:Hc.
    + destruct (match_letters c s) as [m|] eqn:Hm.
      * intros [= <-]. apply IH in Hm as [Hlen Hall].
        split; [lia|]. simpl. now rewrite Hc, Hall.
      * destruct (word_boundary _ _); [|discriminate].
        intros [= <-]. split; [lia|reflexivity].
    + destruct (word_boundary _ _); [|discriminate].
      intros [= <-]. split; [lia|reflexivity].
Qed.

Lemma findall_from_letters skip prev s w :
  In w (findall_from skip prev s) ->
  all_chars is_ascii_letter w = true /\ 0 < String.length w
  /\ (forall p, all_chars p s = true -> all_chars p w = true).
Proof.
  revert skip prev. induction s as [|c s IH]; intros skip prev; simpl.
  - intros [].
  - assert (Hrest : forall k q, In w (findall_from k q s) ->
              all_chars is_ascii_letter w = true /\ 0 < String.length w
              /\ (forall p, all_chars p (String c s) = true ->
                            all_chars p w = true)).
    { intros k q H. apply IH in H as (H1 & H2 & H3).
      repeat split; trivial. intros p Hp. simpl in Hp.
      apply andb_true_iff in Hp as [_ Hp]. auto. }
    destruct skip as [|k]; [|apply Hrest].
    destruct (word_boundary prev (Some c) && is_ascii_letter c) eqn:Hb;
      [|apply Hrest].
    destruct (match_letters c s) as [n|] eqn:Hm; [|apply Hrest].
    intros [<-|H]; [|revert H; apply Hrest].
    apply andb_true_iff in Hb as [_ Hc].
    apply match_letters_spec in Hm as [Hlen Hall].
    repeat split.
    + simpl. now rewrite Hc, Hall.
    + simpl. lia.
    + intros p Hp. simpl in Hp. apply andb_true_iff in Hp as [Hpc Hp].
      simpl. rewrite Hpc. simpl. now apply all_chars_substring.
Qed.

(** Every token is a non-empty string of the letters [a]..[z]. *)
Lemma words_of_lowercase text w :
  In w (words_of text) ->
  all_chars is_ascii_lower w = true /\ 0 < String.length w.
Proof.
  unfold words_of, findall_words. intros H.
  apply findall_from_letters in H as (Hl & Hn & Hsub).
  split; [|exact Hn].
  assert (Hnu : all_chars (fun c => negb (is_ascii_upper c)) w = true).
  { apply Hsub. clear. induction text as [|c s IH]; simpl; [reflexivity|].
    rewrite IH, andb_true_r. each_char c; reflexivity. }
  clear - Hl Hnu. induction w as [|c w IH]; simpl in *; [reflexivity|].
  apply andb_true_iff in Hl as [Hc Hl]. apply andb_true_iff in Hnu as [Hu Hnu].
  rewrite IH by assumption. rewrite andb_true_r.
  revert Hc Hu. each_char c; intros Hc Hu;
    solve [reflexivity | discriminate Hc | discriminate Hu].
Qed.

(** *** Which runs of letters are tokens *)

Lemma runs_span p c s :
  p c = true ->
  runs p (String c s) = String c (take_while p s) :: runs p (drop_while p s).
Proof.
  revert c. induction s as [|d s IH]; intros c Hc.
  - simpl. now rewrite Hc.
  - change (runs p (String c (String d s)))
      with (if p c then
              if p d then
                match runs p (String d s) with
                | r :: rs => String c r :: rs
                | [] => [String c EmptyString]
                end
              else String c EmptyString :: runs p (String d s)
            else runs p (String d s)).
    rewrite Hc. simpl take_while. simpl drop_while.
    destruct (p d) eqn:Hd.
    + now rewrite (IH d Hd).
    + reflexivity.
Qed.

Lemma runs_skip p c s : p c = false -> runs p (String c s) = runs p s.
Proof. intros H. simpl. now rewrite H. Qed.

Lemma drop_while_fixed p s : starts_with p s = false -> drop_while p s = s.
Proof. destruct s as [|c s]; simpl; [reflexivity|]. now intros ->. Qed.

Lemma drop_take_while p s :
  drop (String.length (take_while p s)) s = drop_while p s
  /\ substring 0 (String.length (take_while p s)) s = take_while p s.
Proof.
  induction s as [|c s [IH1 IH2]]; simpl; [split; reflexivity|].
  destruct (p c); simpl; [|split; reflexivity].
  split; [exact IH1|now rewrite IH2].
Qed.

Lemma drop_while_letter_starts s :
  starts_with is_ascii_letter (drop_while is_ascii_letter s) = false.
Proof.
  induction s as [|c s IH]; simpl; [reflexivity|].
  destruct (is_ascii_letter c) eqn:Hc; [exact IH|]. simpl. exact Hc.
Qed.

(** The backtracking never helps: the match closes after the whole run of
    letters or not at all. *)
Lemma match_letters_closed prev s :
  is_ascii_letter prev = true ->
  match_letters prev s =
    if starts_with is_word (drop_while is_ascii_letter s) then None
    else Some (String.length (take_while is_ascii_letter s)).
Proof.
  revert prev. induction s as [|c s IH]; intros prev Hprev.
  - simpl. unfold word_boundary. simpl.
    now rewrite (letter_is_word _ Hprev).
  - simpl. unfold word_boundary. simpl. rewrite (letter_is_word _ Hprev).
    destruct (is_ascii_letter c) eqn:Hc.
    + rewrite (IH c Hc), (letter_is_word _ Hc). simpl.
      destruct (starts_with is_word (drop_while is_ascii_letter s));
        reflexivity.
    + simpl. destruct (is_word c); reflexivity.
Qed.

Lemma word_run_of_letters s :
  starts_with is_word (drop_while is_ascii_letter s) = false ->
  take_while is_word s = take_while is_ascii_letter s
  /\ drop_while is_word s = drop_while is_ascii_letter s.
Proof.
  induction s as [|c s IH]; simpl; [split; reflexivity|].
  destruct (is_ascii_letter c) eqn:Hc.
  - rewrite (letter_is_word _ Hc). intros H. destruct (IH H) as [-> ->].
    split; reflexivity.
  - simpl. intros ->. split; reflexivity.
Qed.

Lemma word_run_mixed s :
  starts_with is_word (drop_while is_ascii_letter s) = true ->
  all_chars is_ascii_letter (take_while is_word s) = false.
Proof.
  induction s as [|c s IH]; simpl; [discriminate|].
  destruct (is_ascii_letter c) eqn:Hc.
  - rewrite (letter_is_word _ Hc). intros H. simpl. now rewrite Hc, IH.
  - simpl. intros ->. simpl. now rewrite Hc.
Qed.

Lemma all_letters_take_while s :
  all_chars is_ascii_letter (take_while is_ascii_letter s) = true.
Proof.
  induction s as [|c s IH]; simpl; [reflexivity|].
  destruct (is_ascii_letter c) eqn:Hc; simpl; [now rewrite Hc|reflexivity].
Qed.

(** The scanner from any of its states: after the [skip] characters of the
    match just reported, the remaining word characters of a run already
    entered are passed over, and of the runs of word characters that
    follow, those made of letters only are the tokens. *)
Lemma findall_from_runs s :
  forall skip prev,
    findall_from skip prev s =
      filter (all_chars is_ascii_letter)
        (runs is_word
           (match skip with
            | O => if is_word_opt prev then drop_while is_word s else s
            | S k => if is_word_opt (get k s)
                     then drop_while is_word (drop skip s) else drop skip s
            end)).
Proof.
  induction s as [|c s IH]; intros skip prev.
  - destruct skip; simpl; destruct (is_word_opt prev); reflexivity.
  - destruct skip as [|k].
    + simpl findall_from.
      destruct (is_word_opt prev) eqn:Hprev.
      * (* inside a run of word characters: no boundary before a word
           character, and a boundary before a character that is no letter *)
        unfold word_boundary. rewrite Hprev. simpl is_word_opt.
        destruct (is_word c) eqn:Hw; simpl.
        -- rewrite Hw. rewrite (IH 0 (Some c)). simpl. now rewrite Hw.
        -- assert (Hc : is_ascii_letter c = false).
           { destruct (is_ascii_letter c) eqn:Hc; [|reflexivity].
             now rewrite (letter_is_word _ Hc) in Hw. }
           rewrite Hc, Hw. rewrite (IH 0 (Some c)). simpl. now rewrite Hw.
      * unfold word_boundary. rewrite Hprev. simpl is_word_opt.
        destruct (is_word c) eqn:Hw; simpl xorb.
        -- destruct (is_ascii_letter c) eqn:Hc; simpl andb.
           ++ rewrite (match_letters_closed c s Hc).
              rewrite (runs_span is_word c s Hw).
              destruct (starts_with is_word (drop_while is_ascii_letter s))
                eqn:Hnext.
              ** rewrite (IH 0 (Some c)). simpl is_word_opt. rewrite Hw.
                 simpl filter. rewrite Hc. simpl.
                 now rewrite (word_run_mixed s Hnext).
              ** destruct (word_run_of_letters s Hnext) as [Htw Hdw].
                 rewrite Htw, Hdw. simpl filter. rewrite Hc.
                 rewrite all_letters_take_while. simpl.
                 destruct (drop_take_while is_ascii_letter s) as [Hd Hs].
                 f_equal.
                 { simpl. now rewrite Hs. }
                 rewrite (IH (String.length (take_while is_ascii_letter s))
                             (Some c)).
                 destruct (String.length (take_while is_ascii_letter s))
                   as [|k] eqn:Hlen.
                 --- simpl in Hd. simpl is_word_opt. rewrite Hw.
                     rewrite <- Hd at 1.
                     rewrite (drop_while_fixed is_word s); [now rewrite Hd|].
                     now rewrite Hd.
                 --- rewrite Hd. rewrite (drop_while_fixed _ _ Hnext).
                     destruct (is_word_opt (get k s)); reflexivity.
           ++ rewrite (IH 0 (Some c)). simpl is_word_opt. rewrite Hw.
              rewrite (runs_span is_word c s Hw). simpl filter.
              now rewrite Hc.
        -- simpl andb. rewrite (IH 0 (Some c)). simpl is_word_opt. rewrite Hw.
           now rewrite runs_skip.
    + simpl findall_from. rewrite (IH k (Some c)).
      destruct k as [|k]; reflexivity.
Qed.

(** ** Counting and ranking *)

Lemma dedup_In l x : In x (dedup l) <-> In x l.
Proof.
  induction l as [|a l IH]; simpl; [tauto|].
  split.
  - intros [->|H]; [now left|]. apply in_remove in H as [H _]. right.
    now apply IH.
  - intros [->|H]; [now left|].
    destruct (string_dec a x) as [->|Hne]; [now left|].
    right. apply in_in_remove; [congruence|now apply IH].
Qed.

Lemma NoDup_remove_elt (x : string) l :
  NoDup l -> NoDup (remove string_dec x l).
Proof.
  induction 1 as [|a l Hin Hnd IH]; simpl; [constructor|].
  destruct (string_dec x a); [exact IH|].
  constructor; [|exact IH]. intros H. now apply in_remove in H as [H _].
Qed.

Lemma dedup_NoDup l : NoDup (dedup l).
Proof.
  induction l as [|a l IH]; simpl; constructor.
  - apply remove_In.
  - now apply NoDup_remove_elt.
Qed.

Lemma dedup_snoc l x :
  dedup (l ++ [x])%list =
    if in_dec string_dec x l then dedup l else (dedup l ++ [x])%list.
Proof.
  induction l as [|a l IH]; simpl; [reflexivity|].
  rewrite IH.
  destruct (in_dec string_dec x l) as [Hin|Hnin].
  - destruct (string_dec a x); reflexivity.
  - rewrite remove_app. simpl.
    destruct (string_dec a x) as [->|Hne].
    + now rewrite app_nil_r.
    + destruct (in_dec string_dec x l); [contradiction|reflexivity].
Qed.

Lemma StronglySorted_remove (R1 R2 : string -> string -> Prop) x l :
  (forall a b, a <> x -> b <> x -> R1 a b -> R2 a b) ->
  StronglySorted R1 l -> StronglySorted R2 (remove string_dec x l).
Proof.
  intros HR. induction 1 as [|a l Hs IH Hall]; simpl; [constructor|].
  destruct (string_dec x a) as [->|Hne]; [exact IH|].
  constructor; [exact IH|].
  rewrite Forall_forall in *. intros b Hb.
  apply in_remove in Hb as [Hb Hbx]. apply HR; auto.
Qed.

Lemma dedup_first_pos l :
  StronglySorted (fun a b => first_pos l a < first_pos l b) (dedup l).
Proof.
  induction l as [|x l IH]; simpl; constructor.
  - eapply StronglySorted_remove; [|exact IH].
    intros a b Ha Hb Hlt. simpl in *.
    destruct (String.eqb_spec x a); [congruence|].
    destruct (String.eqb_spec x b); [congruence|]. lia.
  - rewrite Forall_forall. intros b Hb. apply in_remove in Hb as [_ Hb].
    simpl. rewrite String.eqb_refl.
    destruct (String.eqb_spec x b); [congruence|]. lia.
Qed.

Lemma dedup_filter f l : dedup (filter f l) = filter f (dedup l).
Proof.
  assert (Hrf : forall x m, remove string_dec x (filter f m)
                            = filter f (remove string_dec x m)).
  { intros x m. induction m as [|a m IHm]; simpl; [reflexivity|].
    destruct (f a) eqn:Hfa; simpl.
    - destruct (string_dec x a); simpl; [exact IHm|]. now rewrite Hfa, IHm.
    - destruct (string_dec x a); simpl; [exact IHm|]. now rewrite Hfa. }
  induction l as [|x l IH]; simpl; [reflexivity|].
  destruct (f x) eqn:Hfx; simpl.
  - now rewrite IH, Hrf.
  - rewrite IH, <- Hrf. symmetry. apply notin_remove.
    intros H. apply filter_In in H as [_ H]. congruence.
Qed.

Lemma StronglySorted_filter {A} (R : A -> A -> Prop) f l :
  StronglySorted R l -> StronglySorted R (filter f l).
Proof.
  induction 1 as [|a l Hs IH Hall]; simpl; [constructor|].
  destruct (f a); [|exact IH].
  constructor; [exact IH|].
  rewrite Forall_forall in *. intros b Hb. apply filter_In in Hb as [Hb _].
  auto.
Qed.

Lemma count_occ_filter f (l : list string) x :
  f x = true ->
  count_occ string_dec (filter f l) x = count_occ string_dec l x.
Proof.
  intros Hx. induction l as [|a l IH]; simpl; [reflexivity|].
  destruct (f a) eqn:Hfa; simpl.
  - destruct (string_dec a x); now rewrite IH.
  - destruct (string_dec a x) as [->|]; [congruence|exact IH].
Qed.

Lemma dict_get_map (f : string -> nat) ks x :
  dict_get (map (fun t => (t, f t)) ks) x 0 = if in_dec string_dec x ks then f x else 0.
Proof.
  induction ks as [|k ks IH]; simpl; [reflexivity|].
  destruct (String.eqb_spec k x) as [->|Hne].
  - destruct (string_dec x x); [reflexivity|congruence].
  - rewrite IH. destruct (string_dec k x); [congruence|].
    destruct (in_dec string_dec x ks); reflexivity.
Qed.

Lemma dict_set_map (f g : string -> nat) ks x v :
  NoDup ks -> g x = v -> (forall t, t <> x -> g t = f t) ->
  dict_set (map (fun t => (t, f t)) ks) x v =
    map (fun t => (t, g t))
        (if in_dec string_dec x ks then ks else (ks ++ [x])%list).
Proof.
  intros Hnd Hx Hother. induction Hnd as [|k ks Hk Hnd IH]; simpl.
  - now rewrite Hx.
  - destruct (String.eqb_spec k x) as [->|Hne].
    + destruct (string_dec x x); [|congruence]. simpl. rewrite Hx. f_equal.
      apply map_ext_in. intros t Ht. rewrite Hother; congruence.
    + rewrite IH. destruct (string_dec k x); [congruence|].
      destruct (in_dec string_dec x ks); simpl; rewrite Hother; congruence.
Qed.

Lemma count_terms_tally key_terms : count_terms key_terms = tally key_terms.
Proof.
  unfold count_terms.
  enough (H : forall rest pre,
             fold_left (fun term_freq term =>
                          dict_set term_freq term
                                   (dict_get term_freq term 0 + 1))
                       rest (tally pre)
             = tally (pre ++ rest)%list) by apply (H key_terms []).
  induction rest as [|x rest IH]; intros pre; simpl.
  - now rewrite app_nil_r.
  - replace (pre ++ x :: rest)%list with ((pre ++ [x]) ++ rest)%list
      by now rewrite <- app_assoc.
    rewrite <- IH. f_equal. unfold tally.
    rewrite dict_get_map, dedup_snoc.
    assert (Hcount : forall t, t <> x ->
               count_occ string_dec (pre ++ [x])%list t
               = count_occ string_dec pre t).
    { intros t Ht. rewrite count_occ_app. simpl.
      destruct (string_dec x t); [congruence|lia]. }
    assert (Hx : count_occ string_dec (pre ++ [x])%list x
                 = count_occ string_dec pre x + 1).
    { rewrite count_occ_app. simpl.
      destruct (string_dec x x); [lia|congruence]. }
    rewrite (dict_set_map _ (count_occ string_dec (pre ++ [x])%list)).
    + destruct (in_dec string_dec x (dedup pre)) as [Hin|Hnin];
        destruct (in_dec string_dec x pre) as [Hin'|Hnin']; try reflexivity.
      * apply (proj1 (dedup_In _ _)) in Hin. contradiction.
      * apply (proj2 (dedup_In _ _)) in Hin'. contradiction.
    + apply dedup_NoDup.
    + rewrite Hx. destruct (in_dec string_dec x (dedup pre)) as [Hin|Hnin];
        [reflexivity|].
      rewrite dedup_In in Hnin.
      apply (count_occ_not_In string_dec) in Hnin. lia.
    + exact Hcount.
Qed.

(** *** The stable sort *)

Section StableSort.

Variable rank : string * nat -> nat.

Lemma insert_desc_perm x l : Permutation (x :: l) (insert_desc x l).
Proof.
  induction l as [|y l IH]; simpl; [reflexivity|].
  destruct (snd x <? snd y)%nat; [|reflexivity].
  rewrite perm_swap. now constructor.
Qed.

Lemma sorted_desc_perm l : Permutation l (sorted_desc l).
Proof.
  induction l as [|x l IH]; simpl; [constructor|].
  rewrite <- insert_desc_perm. now constructor.
Qed.

Lemma insert_desc_sorted x l :
  StronglySorted (before rank) l ->
  Forall (fun y => rank x < rank y) l ->
  StronglySorted (before rank) (insert_desc x l).
Proof.
  induction 1 as [|y l Hs IH Hall]; intros Hrank; simpl.
  - repeat constructor.
  - inversion Hrank as [|? ? Hy Hl]; subst.
    destruct (Nat.ltb_spec (snd x) (snd y)) as [Hlt|Hge].
    + constructor; [now apply IH|].
      rewrite Forall_forall in *. intros z Hz.
      apply (Permutation_in _ (Permutation_sym (insert_desc_perm x l)))
        in Hz as [<-|Hz]; [now left|auto].
    + constructor; [now constructor|].
      constructor.
      * unfold before. lia.
      * rewrite Forall_forall in *. intros z Hz.
        specialize (Hall z Hz). specialize (Hl z Hz).
        unfold before in *. lia.
Qed.

Lemma sorted_desc_sorted l :
  StronglySorted (fun p q => rank p < rank q) l ->
  StronglySorted (before rank) (sorted_desc l).
Proof.
  induction 1 as [|x l Hs IH Hall]; simpl; [constructor|].
  apply insert_desc_sorted; [exact IH|].
  rewrite Forall_forall in *. intros y Hy. apply Hall.
  now apply (Permutation_in _ (Permutation_sym (sorted_desc_perm l))).
Qed.

End StableSort.

Lemma StronglySorted_firstn {A} (R : A -> A -> Prop) n l :
  StronglySorted R l -> StronglySorted R (firstn n l).
Proof.
  intros H. revert n. induction H as [|a l Hs IH Hall]; intros [|n]; simpl;
    try constructor.
  - apply IH.
  - rewrite Forall_forall in *. intros b Hb. apply Hall.
    rewrite <- (firstn_skipn n l). apply in_or_app. now left.
Qed.

Lemma StronglySorted_nth {A} (R : A -> A -> Prop) l i j a b :
  StronglySorted R l -> i < j ->
  nth_error l i = Some a -> nth_error l j = Some b -> R a b.
Proof.
  intros H. revert i j. induction H as [|x l Hs IH Hall]; intros i j Hij Hi Hj.
  - destruct i; discriminate.
  - destruct j as [|j]; [lia|]. destruct i as [|i]; simpl in *.
    + injection Hi as <-. rewrite Forall_forall in Hall. apply Hall.
      eapply nth_error_In; eauto.
    + apply (IH i j); trivial. lia.
Qed.

Lemma StronglySorted_map {A B} (g : A -> B) (R : B -> B -> Prop) l :
  StronglySorted (fun a b => R (g a) (g b)) l -> StronglySorted R (map g l).
Proof.
  induction 1 as [|a l Hs IH Hall]; simpl; constructor; [exact IH|].
  rewrite Forall_forall in *. intros b Hb.
  apply in_map_iff in Hb as (x & <- & Hx). auto.
Qed.

Lemma NoDup_firstn {A} n (l : list A) : NoDup l -> NoDup (firstn n l).
Proof.
  intros H. rewrite <- (firstn_skipn n l) in H.
  now apply NoDup_app_remove_r in H.
Qed.

Lemma In_firstn {A} n (l : list A) x : In x (firstn n l) -> In x l.
Proof.
  intros H. rewrite <- (firstn_skipn n l). apply in_or_app. now left.
Qed.

Lemma tally_keys l : map fst (tally l) = dedup l.
Proof.
  unfold tally. rewrite map_map. simpl. apply map_id.
Qed.

(** Every entry of the sorted dictionary is a kept token of the text with
    its frequency. *)
Lemma sorted_terms_entries text p :
  In p (sorted_desc (count_terms (filter keep_word (words_of text)))) ->
  In (fst p) (words_of text) /\ keep_word (fst p) = true
  /\ snd p = frequency text (fst p).
Proof.
  intros H.
  apply (Permutation_in _ (Permutation_sym (sorted_desc_perm _))) in H.
  rewrite count_terms_tally in H. unfold tally in H.
  apply in_map_iff in H as (t & <- & Ht). simpl.
  apply (proj1 (dedup_In _ _)) in Ht. apply filter_In in Ht as [Hin Hkeep].
  repeat split; trivial. unfold frequency. now apply count_occ_filter.
Qed.

Lemma sorted_terms_ranked text :
  StronglySorted (before (fun p => first_occurrence text (fst p)))
    (sorted_desc (count_terms (filter keep_word (words_of text)))).
Proof.
  apply sorted_desc_sorted. rewrite count_terms_tally. unfold tally.
  apply StronglySorted_map. simpl. rewrite dedup_filter.
  apply StronglySorted_filter. apply dedup_first_pos.
Qed.

(** C3.  For every text, [extract_key_terms] returns at most 10 terms; each
    is a string of lowercase letters, longer than 3 characters and no
    stopword; no term occurs twice; and a term listed earlier is at least as
    frequent in the text as one listed later, two terms of equal frequency
    being listed in the order of their first occurrence in the text. *)
Theorem extract_key_terms_ranking (text : string) :
  let terms := extract_key_terms text in
  List.length terms <= 10
  /\ (forall t, In t terms ->
        all_chars is_ascii_lower t = true
        /\ 3 < String.length t
        /\ ~ In t stopwords)
  /\ NoDup terms
  /\ (forall i j a b,
        i < j -> nth_error terms i = Some a -> nth_error terms j = Some b ->
        frequency text b <= frequency text a
        /\ (frequency text a = frequency text b ->
            first_occurrence text a < first_occurrence text b)).
Proof.
  unfold extract_key_terms.
  set (sorted_terms := sorted_desc _).
  assert (Hentry : forall t, In t (map fst (firstn 10 sorted_terms)) ->
            exists p : string * nat,
              fst p = t /\ In (fst p) (words_of text)
                      /\ keep_word (fst p) = true).
  { intros t Ht. apply in_map_iff in Ht as (p & Hp & Hin).
    apply In_firstn, sorted_terms_entries in Hin as (Hw & Hkeep & _).
    now exists p. }
  split; [|split; [|split]].
  - rewrite length_map. apply firstn_le_length.
  - intros t Ht. destruct (Hentry t Ht) as (p & <- & Hw & Hkeep).
    unfold keep_word in Hkeep. apply andb_true_iff in Hkeep as [Hstop Hlen].
    split; [now apply words_of_lowercase in Hw|].
    split; [now apply Nat.ltb_lt in Hlen|].
    apply negb_true_iff in Hstop. intros Hin.
    assert (Hex : in_stopwords (fst p) = true).
    { apply existsb_exists. exists (fst p). split; [exact Hin|].
      apply String.eqb_refl. }
    congruence.
  - rewrite <- firstn_map. apply NoDup_firstn.
    apply (Permutation_NoDup
             (Permutation_map fst (sorted_desc_perm (count_terms _)))).
    rewrite count_terms_tally, tally_keys. apply dedup_NoDup.
  - intros i j a b Hij Ha Hb. rewrite nth_error_map in Ha, Hb.
    destruct (nth_error (firstn 10 sorted_terms) i) as [p|] eqn:Hp;
      [|discriminate].
    destruct (nth_error (firstn 10 sorted_terms) j) as [q|] eqn:Hq;
      [|discriminate].
    injection Ha as <-. injection Hb as <-.
    pose proof (StronglySorted_nth _ _ _ _ _ _
                  (StronglySorted_firstn _ 10 _ (sorted_terms_ranked text))
                  Hij Hp Hq) as Hpq.
    apply nth_error_In, In_firstn, sorted_terms_entries in Hp as (_ & _ & Hfp).
    apply nth_error_In, In_firstn, sorted_terms_entries in Hq as (_ & _ & Hfq).
    unfold before in Hpq. lia.
Qed.

(** ** Sentences *)

Lemma split_from_runs s :
  forall in_sep piece,
    (in_sep = true -> piece = EmptyString) ->
    filter nonempty (split_from in_sep piece s) =
      match piece with
      | EmptyString => runs not_terminator s
      | String _ _ =>
          (piece ++ take_while not_terminator s)
            :: runs not_terminator (drop_while not_terminator s)
      end.
Proof.
  induction s as [|c s IH]; intros in_sep piece Hsep.
  - simpl. destruct piece; simpl; [reflexivity|now rewrite append_nil_r].
  - simpl split_from. simpl take_while. simpl drop_while.
    destruct (is_terminator c) eqn:Hc.
    + assert (Hq : not_terminator c = false)
        by (unfold not_terminator; now rewrite Hc).
      rewrite Hq, (runs_skip _ c s Hq), append_nil_r.
      destruct in_sep.
      * rewrite (Hsep eq_refl). now apply IH.
      * simpl filter. rewrite (IH true EmptyString (fun _ => eq_refl)).
        destruct piece; reflexivity.
    + assert (Hq : not_terminator c = true)
        by (unfold not_terminator; now rewrite Hc).
      rewrite Hq, (runs_span _ c s Hq).
      rewrite (IH false (piece ++ String c EmptyString)) by discriminate.
      destruct piece as [|d piece].
      * reflexivity.
      * simpl append. now rewrite append_assoc.
Qed.

Lemma filter_implied {A} (f g : A -> bool) l :
  (forall x, f x = true -> g x = true) ->
  filter f (filter g l) = filter f l.
Proof.
  intros Hfg. induction l as [|a l IH]; simpl; [reflexivity|].
  destruct (g a) eqn:Hg; simpl.
  - now rewrite IH.
  - destruct (f a) eqn:Hf; [|exact IH]. apply Hfg in Hf. congruence.
Qed.

Lemma runs_all_chars p s r : In r (runs p s) -> all_chars p r = true.
Proof.
  revert r. induction s as [|c s IH]; intros r; simpl; [intros []|].
  destruct (p c) eqn:Hc; [|apply IH].
  destruct (starts_with p s).
  - destruct (runs p s) as [|r0 rs].
    + intros [<-|[]]. simpl. now rewrite Hc.
    + intros [<-|H].
      * simpl. rewrite Hc. apply IH. now left.
      * apply IH. now right.
  - intros [<-|H]; [simpl; now rewrite Hc|now apply IH].
Qed.

Lemma lstrip_peek s : is_space_opt (peek (lstrip s)) = false.
Proof.
  induction s as [|c s IH]; simpl; [reflexivity|].
  destruct (is_space c) eqn:Hc; [exact IH|]. simpl. exact Hc.
Qed.

Lemma rstrip_peek s :
  is_space_opt (peek s) = false -> is_space_opt (peek (rstrip s)) = false.
Proof.
  destruct s as [|c s]; simpl; [reflexivity|]. intros Hc.
  destruct (rstrip s); [now rewrite Hc|exact Hc].
Qed.

Lemma rstrip_last s : is_space_opt (last_char (rstrip s)) = false.
Proof.
  induction s as [|c s IH]; simpl; [reflexivity|].
  destruct (rstrip s) as [|d r] eqn:Hr.
  - destruct (is_space c) eqn:Hc; simpl; [reflexivity|exact Hc].
  - exact IH.
Qed.

Lemma lstrip_decompose s :
  exists lead, s = lead ++ lstrip s /\ all_chars is_space lead = true.
Proof.
  induction s as [|c s (lead & Hs & Hlead)]; simpl; [now exists ""|].
  destruct (is_space c) eqn:Hc; [|now exists ""].
  exists (String c lead). simpl. rewrite Hc, Hlead. split; [|reflexivity].
  now rewrite <- Hs.
Qed.

Lemma rstrip_decompose s :
  exists trail, s = rstrip s ++ trail /\ all_chars is_space trail = true.
Proof.
  induction s as [|c s (trail & Hs & Htrail)]; simpl; [now exists ""|].
  destruct (rstrip s) as [|d r] eqn:Hr.
  - simpl in Hs. subst trail. destruct (is_space c) eqn:Hc.
    + exists (String c s). simpl. now rewrite Hc, Htrail.
    + exists s. now split.
  - exists trail. split; [|exact Htrail]. simpl in *. now rewrite <- Hs.
Qed.

(** Trimming takes whitespace off both ends and nothing else. *)
Lemma strip_decompose s :
  exists lead trail,
    s = lead ++ strip s ++ trail
    /\ all_chars is_space lead = true /\ all_chars is_space trail = true.
Proof.
  destruct (lstrip_decompose s) as (lead & Hs & Hlead).
  destruct (rstrip_decompose (lstrip s)) as (trail & Ht & Htrail).
  exists lead, trail. unfold strip. now rewrite <- Ht.
Qed.

Lemma strip_trimmed s : trimmed (strip s).
Proof.
  split; [apply rstrip_peek, lstrip_peek|apply rstrip_last].
Qed.

Lemma all_chars_lstrip p s :
  all_chars p s = true -> all_chars p (lstrip s) = true.
Proof.
  induction s as [|c s IH]; simpl; [trivial|].
  intros H. destruct (is_space c); [|exact H].
  apply andb_true_iff in H as [_ H]. auto.
Qed.

Lemma all_chars_rstrip p s :
  all_chars p s = true -> all_chars p (rstrip s) = true.
Proof.
  induction s as [|c s IH]; simpl; [trivial|].
  intros H. apply andb_true_iff in H as [Hc Hs]. specialize (IH Hs).
  destruct (rstrip s) as [|d r].
  - destruct (is_space c); simpl; [reflexivity|now rewrite Hc].
  - simpl in *. now rewrite Hc, IH.
Qed.

(** C8.  For every text, [extract_sentences] returns, in the order of the
    text, the pieces between the maximal runs of [.], [!] and [?], that is
    the maximal runs of other characters, each trimmed, and only those
    longer than 10 characters once trimmed; so every sentence returned is
    such a piece without the whitespace at its two ends, is longer than 10
    characters and holds none of the three delimiters. *)
Theorem extract_sentences_pieces (text : string) :
  extract_sentences text =
    map strip
      (filter (fun piece => (10 <? String.length (strip piece))%nat)
              (runs not_terminator text))
  /\ (forall s, In s (extract_sentences text) ->
        10 < String.length s
        /\ trimmed s
        /\ all_chars not_terminator s = true
        /\ exists piece lead trail,
             In piece (runs not_terminator text)
             /\ piece = lead ++ s ++ trail
             /\ all_chars is_space lead = true
             /\ all_chars is_space trail = true).
Proof.
  assert (Heq : extract_sentences text =
    map strip
      (filter (fun piece => (10 <? String.length (strip piece))%nat)
              (runs not_terminator text))).
  { unfold extract_sentences, split_terminators. f_equal.
    rewrite <- (split_from_runs text false EmptyString) by discriminate.
    symmetry. apply filter_implied.
    intros [|c s]; [discriminate|reflexivity]. }
  split; [exact Heq|].
  intros s Hs. rewrite Heq in Hs.
  apply in_map_iff in Hs as (piece & <- & Hp).
  apply filter_In in Hp as [Hrun Hlen].
  split; [now apply Nat.ltb_lt in Hlen|].
  split; [apply strip_trimmed|].
  split.
  - apply all_chars_rstrip, all_chars_lstrip.
    now apply runs_all_chars in Hrun.
  - destruct (strip_decompose piece) as (lead & trail & Hd & Hlead & Htrail).
    now exists piece, lead, trail.
Qed.

(** ** Subscripts, [index] and the exchange of two items *)

Lemma getitem_Returns {A} (l : list A) i :
  i < List.length l ->
  exists a, getitem l i = Returns a /\ nth_error l i = Some a.
Proof.
  intros Hi. unfold getitem.
  destruct (nth_error l i) as [a|] eqn:Ha; [now exists a|].
  apply nth_error_None in Ha. lia.
Qed.

Lemma setitem_Returns {A} (l : list A) i v :
  i < List.length l ->
  exists l', setitem l i v = Returns l'
             /\ List.length l' = List.length l
             /\ forall n, nth_error l' n
                          = if (n =? i)%nat then Some v else nth_error l n.
Proof.
  revert i. induction l as [|a l IH]; intros i Hi; simpl in Hi; [lia|].
  destruct i as [|i]; simpl.
  - exists (v :: l). repeat split. intros [|n]; reflexivity.
  - destruct (IH i) as (l' & -> & Hlen & Hnth); [lia|].
    exists (a :: l'). repeat split; [simpl; now rewrite Hlen|].
    intros [|n]; simpl; [reflexivity|apply Hnth].
Qed.

Lemma swap_Returns {A} (x : list A) i j :
  i < List.length x -> j < List.length x ->
  exists x', swap x i j = Returns x'
             /\ List.length x' = List.length x
             /\ Permutation x x'.
Proof.
  intros Hi Hj. unfold swap.
  destruct (getitem_Returns x j Hj) as (xj & -> & Hxj).
  destruct (getitem_Returns x i Hi) as (xi & -> & Hxi).
  destruct (setitem_Returns x i xj Hi) as (x1 & -> & Hlen1 & Hnth1).
  destruct (setitem_Returns x1 j xi) as (x2 & -> & Hlen2 & Hnth2); [lia|].
  exists x2. repeat split; [lia|].
  apply Permutation_nth_error. split; [lia|].
  exists (fun n => if (n =? i)%nat then j else if (n =? j)%nat then i else n).
  split.
  - intros a b.
    destruct (Nat.eqb_spec a i), (Nat.eqb_spec a j),
             (Nat.eqb_spec b i), (Nat.eqb_spec b j); lia.
  - intros n. rewrite Hnth2, Hnth1.
    destruct (Nat.eqb_spec n j) as [->|Hnj].
    + destruct (Nat.eqb_spec j i) as [->|Hji]; [now rewrite Hxi|].
      now rewrite Hxi.
    + destruct (Nat.eqb_spec n i) as [->|Hni]; [now rewrite Hxj|].
      reflexivity.
Qed.

Lemma list_index_Returns l x :
  In x l ->
  exists i, list_index l x = Returns i /\ nth_error l i = Some x.
Proof.
  induction l as [|y l IH]; simpl; [intros []|].
  intros Hin. destruct (String.eqb_spec y x) as [->|Hne].
  - now exists 0.
  - destruct IH as (i & -> & Hi); [destruct Hin; congruence|].
    now exists (S i).
Qed.

(** [index] returns the first position that holds the value. *)
Lemma list_index_first l x i :
  list_index l x = Returns i ->
  nth_error l i = Some x /\ forall j, j < i -> nth_error l j <> Some x.
Proof.
  revert i. induction l as [|y l IH]; intros i; simpl; [discriminate|].
  destruct (String.eqb_spec y x) as [->|Hne].
  - intros [= <-]. split; [reflexivity|]. intros j Hj. lia.
  - destruct (list_index l x) as [k|e]; [|discriminate].
    intros [= <-]. destruct (IH k eq_refl) as [Hk Hfirst].
    split; [exact Hk|]. intros [|j] Hj; simpl; [congruence|].
    apply Hfirst. lia.
Qed.

(** In a list without repetition, a value sits at one position only. *)
Lemma NoDup_position (l : list string) x i j :
  NoDup l -> nth_error l i = Some x -> nth_error l j = Some x -> i = j.
Proof.
  intros Hnd Hi Hj.
  apply (proj1 (NoDup_nth_error l) Hnd).
  - apply nth_error_Some. congruence.
  - congruence.
Qed.

(** ** The random source *)

Section RandomFacts.

Variable rng : Type.
Variable randbelow : nat -> rng -> nat * rng.

(** The contract of [randbelow]: an integer below its argument. *)
Hypothesis randbelow_lt : forall n g, 0 < n -> fst (randbelow n g) < n.

Lemma choice_Returns {A} (seq : list A) g :
  seq <> [] ->
  exists a,
    choice randbelow seq g = Returns (a, snd (randbelow (List.length seq) g))
    /\ nth_error seq (fst (randbelow (List.length seq) g)) = Some a
    /\ fst (randbelow (List.length seq) g) < List.length seq.
Proof.
  intros Hne. destruct seq as [|a0 seq]; [congruence|].
  unfold choice, bind, draw, lift.
  set (n := List.length (a0 :: seq)).
  assert (Hn : 0 < n) by (subst n; simpl; lia).
  specialize (randbelow_lt n g Hn).
  destruct (randbelow n g) as [j g'] eqn:Hd. simpl in *.
  destruct (getitem_Returns (a0 :: seq) j randbelow_lt) as (a & -> & Ha).
  exists a. auto.
Qed.

Lemma shuffle_loop_Returns {A} i :
  forall (x : list A) g,
    i = 0 \/ i < List.length x ->
    exists x' g',
      shuffle_loop randbelow i x g = Returns (x', g') /\ Permutation x x'.
Proof.
  induction i as [|i IH]; intros x g Hi.
  - exists x, g. split; [reflexivity|apply Permutation_refl].
  - assert (Hlen : S i < List.length x) by lia.
    cbn [shuffle_loop]. unfold bind, draw, lift.
    assert (Hj : fst (randbelow (S i + 1) g) < S i + 1)
      by (apply randbelow_lt; lia).
    destruct (randbelow (S i + 1) g) as [j g1]. simpl in Hj.
    destruct (swap_Returns x (S i) j) as (x1 & -> & Hlen1 & Hperm1);
      [lia|lia|].
    destruct (IH x1 g1) as (x' & g' & -> & Hperm); [right; lia|].
    exists x', g'. split; [reflexivity|].
    now apply (Permutation_trans Hperm1).
Qed.

Lemma shuffle_Returns {A} (x : list A) g :
  exists x' g', shuffle randbelow x g = Returns (x', g') /\ Permutation x x'.
Proof.
  unfold shuffle. apply shuffle_loop_Returns.
  destruct x; simpl; [now left|right; lia].
Qed.

(** Shuffling options among which the answer occurs, then asking for the
    index of the answer. *)
Lemma shuffle_then_index opts answer g :
  In answer opts ->
  exists opts' idx g',
    shuffle randbelow opts g = Returns (opts', g')
    /\ Permutation opts opts'
    /\ list_index opts' answer = Returns idx
    /\ nth_error opts' idx = Some answer.
Proof.
  intros Hin.
  destruct (shuffle_Returns opts g) as (opts' & g' & Hs & Hperm).
  destruct (list_index_Returns opts' answer) as (idx & Hidx & Hnth).
  { now apply (Permutation_in _ Hperm). }
  now exists opts', idx, g'.
Qed.

End RandomFacts.

(** ** The options of a question *)

Lemma definition_options_NoDup term : NoDup (definition_options term).
Proof.
  unfold definition_options, definition_correct_answer.
  assert (Hlen : forall a b : string,
             String.length a <> String.length b -> a <> b) by congruence.
  repeat constructor; simpl; intros H;
    repeat match goal with
      | H : _ \/ _ |- _ => destruct H as [H|H]
      | H : False |- _ => destruct H
      end.
  - revert H. apply Hlen. simpl. rewrite !length_append. simpl. lia.
  - revert H. apply Hlen. simpl. rewrite !length_append. simpl. lia.
  - discriminate H.
  - apply append_inj_r in H. discriminate H.
  - revert H. apply Hlen. simpl. rewrite !length_append. simpl. lia.
  - revert H. apply Hlen. simpl. rewrite !length_append. simpl. lia.
Qed.

Lemma comprehension_options_NoDup sentence :
  NoDup (comprehension_options sentence).
Proof.
  unfold comprehension_options, comprehension_correct_answer.
  repeat constructor; simpl; intros H;
    repeat match goal with
      | H : _ \/ _ |- _ => destruct H as [H|H]
      | H : False |- _ => destruct H
      end; discriminate H.
Qed.

(** ** Question records *)

Section Builder.

Variable rng : Type.
Variable randbelow : nat -> rng -> nat * rng.
Hypothesis randbelow_lt : in_range randbelow.

Lemma create_definition_question_Returns sentences key_terms g :
  key_terms <> [] ->
  exists term opts idx g',
    create_definition_question randbelow sentences key_terms g =
      Returns ({| question := definition_question term;
                  options := opts;
                  correct_answer := idx;
                  explanation := definition_explanation term |}, g')
    /\ nth_error (firstn 5 key_terms)
         (fst (randbelow (List.length (firstn 5 key_terms)) g)) = Some term
    /\ Permutation (definition_options term) opts
    /\ list_index opts (definition_correct_answer term) = Returns idx
    /\ nth_error opts idx = Some (definition_correct_answer term).
Proof.
  intros Hne.
  assert (Hunf : forall X (a b : X),
             match key_terms with [] => a | _ :: _ => b end = b)
    by (intros; destruct key_terms; [congruence|reflexivity]).
  unfold create_definition_question. rewrite Hunf.
  destruct (choice_Returns rng randbelow randbelow_lt
              (firstn 5 key_terms) g) as (term & Hc & Hnth & _).
  { destruct key_terms; [congruence|discriminate]. }
  unfold bind at 1. rewrite Hc.
  destruct (shuffle_then_index rng randbelow randbelow_lt
              (definition_options term) (definition_correct_answer term)
              (snd (randbelow (List.length (firstn 5 key_terms)) g)))
    as (opts & idx & g' & Hs & Hperm & Hidx & Hopt).
  { now left. }
  unfold bind, lift. rewrite Hs, Hidx.
  exists term, opts, idx, g'. repeat split; assumption.
Qed.

Lemma create_comprehension_question_Returns sentences key_terms g :
  sentences <> [] ->
  exists sentence opts idx g',
    create_comprehension_question randbelow sentences key_terms g =
      Returns ({| question := comprehension_question;
                  options := opts;
                  correct_answer := idx;
                  explanation := comprehension_explanation |}, g')
    /\ nth_error (firstn 3 sentences)
         (fst (randbelow (List.length (firstn 3 sentences)) g))
       = Some sentence
    /\ Permutation (comprehension_options sentence) opts
    /\ list_index opts (comprehension_correct_answer sentence) = Returns idx
    /\ nth_error opts idx = Some (comprehension_correct_answer sentence).
Proof.
  intros Hne.
  assert (Hunf : forall X (a b : X),
             match sentences with [] => a | _ :: _ => b end = b)
    by (intros; destruct sentences; [congruence|reflexivity]).
  unfold create_comprehension_question. rewrite Hunf.
  destruct (choice_Returns rng randbelow randbelow_lt
              (firstn 3 sentences) g) as (sentence & Hc & Hnth & _).
  { destruct sentences; [congruence|discriminate]. }
  unfold bind at 1. rewrite Hc.
  destruct (shuffle_then_index rng randbelow randbelow_lt
              (comprehension_options sentence)
              (comprehension_correct_answer sentence)
              (snd (randbelow (List.length (firstn 3 sentences)) g)))
    as (opts & idx & g' & Hs & Hperm & Hidx & Hopt).
  { now left. }
  unfold bind, lift. rewrite Hs, Hidx.
  exists sentence, opts, idx, g'. repeat split; assumption.
Qed.

Lemma definition_slot sentences key_terms g :
  exists q g',
    create_definition_question randbelow sentences key_terms g
      = Returns (q, g')
    /\ definition_record key_terms q.
Proof.
  destruct key_terms as [|t0 rest].
  - exists (create_fallback_question []), g. split; reflexivity.
  - destruct (create_definition_question_Returns sentences (t0 :: rest) g)
      as (term & opts & idx & g' & Hq & Hnth & Hperm & Hidx & Hopt);
      [discriminate|].
    eexists; exists g'. split; [exact Hq|].
    unfold definition_record. exists term.
    split; [eapply nth_error_In; exact Hnth|].
    unfold located. simpl. auto.
Qed.

Lemma comprehension_slot sentences key_terms g :
  exists q g',
    create_comprehension_question randbelow sentences key_terms g
      = Returns (q, g')
    /\ comprehension_record sentences q.
Proof.
  destruct sentences as [|s0 rest].
  - exists (create_fallback_question []), g. split; reflexivity.
  - destruct (create_comprehension_question_Returns (s0 :: rest) key_terms g)
      as (sentence & opts & idx & g' & Hq & Hnth & Hperm & Hidx & Hopt);
      [discriminate|].
    eexists; exists g'. split; [exact Hq|].
    unfold comprehension_record. exists sentence.
    split; [eapply nth_error_In; exact Hnth|].
    unfold located. simpl. auto.
Qed.

(** The loop of [generate_quiz_questions], unrolled. *)
Lemma generate_quiz_questions_unrolled text g :
  generate_quiz_questions randbelow text g =
    match create_definition_question randbelow
            (extract_sentences text) (extract_key_terms text) g with
    | Returns (q0, g1) =>
        match create_comprehension_question randbelow
                (extract_sentences text) (extract_key_terms text) g1 with
        | Returns (q1, g2) =>
            Returns ([q0; q1;
                      create_inference_question
                        (extract_sentences text) (extract_key_terms text)],
                     g2)
        | Raises e => Raises e
        end
    | Raises e => Raises e
    end.
Proof.
  unfold generate_quiz_questions. cbn [seq for_each].
  unfold create_question, question_types, bind, ret. simpl.
  destruct (create_definition_question _ _ _ g) as [[q0 g1]|e];
    [|reflexivity].
  destruct (create_comprehension_question _ _ _ g1) as [[q1 g2]|e];
    reflexivity.
Qed.

End Builder.

Lemma located_fallback sentences :
  located (create_fallback_question sentences) fallback_correct_answer.
Proof. split; reflexivity. Qed.

Lemma located_inference sentences key_terms :
  located (create_inference_question sentences key_terms)
          inference_correct_answer.
Proof. split; reflexivity. Qed.

Lemma located_unique q answer j :
  NoDup (options q) -> located q answer ->
  (nth_error (options q) j = Some answer <-> j = correct_answer q).
Proof.
  intros Hnd [Hnth _]. split.
  - intros Hj. eapply NoDup_position; eauto.
  - now intros ->.
Qed.

Lemma slice_to_prefix n s : exists rest, s = slice_to n s ++ rest.
Proof.
  unfold slice_to. revert n. induction s as [|c s IH]; intros [|n]; simpl.
  - now exists "".
  - now exists "".
  - now exists (String c s).
  - destruct (IH n) as (rest & Hrest). exists rest. now rewrite <- Hrest.
Qed.

Lemma slice_to_length n s :
  String.length (slice_to n s) = Nat.min n (String.length s).
Proof.
  unfold slice_to. revert n. induction s as [|c s IH]; intros [|n]; simpl;
    trivial. now rewrite IH.
Qed.

Lemma slice_to_short n s : String.length s <= n -> slice_to n s = s.
Proof.
  unfold slice_to. revert n. induction s as [|c s IH]; intros [|n]; simpl;
    trivial; try lia.
  intros H. rewrite IH; [reflexivity|lia].
Qed.

(** C1.  For every text and every random source, [generate_quiz_questions]
    returns three records, and in each the correct index points at the
    answer text that its strategy designates: the Definition and the
    Comprehension records hold a permutation of the four options, with the
    correct index being the one that [index] finds for the designated answer
    in the shuffled options; the Inference and the Fallback records
    designate their first option, with index 0. *)
Theorem correct_index_tracks_answer
    (rng : Type) (randbelow : nat -> rng -> nat * rng)
    (randbelow_lt : in_range randbelow) (text : string) (g : rng) :
  exists q0 q1 q2 g',
    generate_quiz_questions randbelow text g = Returns ([q0; q1; q2], g')
    /\ definition_record (extract_key_terms text) q0
    /\ comprehension_record (extract_sentences text) q1
    /\ located q2 inference_correct_answer
    /\ located (create_fallback_question []) fallback_correct_answer.
Proof.
  rewrite generate_quiz_questions_unrolled.
  destruct (definition_slot rng randbelow randbelow_lt
              (extract_sentences text) (extract_key_terms text) g)
    as (q0 & g1 & -> & H0).
  destruct (comprehension_slot rng randbelow randbelow_lt
              (extract_sentences text) (extract_key_terms text) g1)
    as (q1 & g2 & -> & H1).
  exists q0, q1, (create_inference_question (extract_sentences text)
                                           (extract_key_terms text)), g2.
  repeat split; trivial.
Qed.

(** C4.  For every text, [create_question] dispatches on the question
    number modulo 3 in the order Definition, Comprehension, Inference, and
    [generate_quiz_questions] returns exactly three records: the first from
    the Definition strategy, the second from the Comprehension strategy run
    after it, the third the Inference record; an empty ranking or an empty
    list of sentences gives the Fallback record in its slot. *)
Theorem three_questions_in_fixed_order
    (rng : Type) (randbelow : nat -> rng -> nat * rng)
    (randbelow_lt : in_range randbelow) (text : string) (g : rng) :
  let sentences := extract_sentences text in
  let key_terms := extract_key_terms text in
  (forall i,
      create_question randbelow sentences key_terms i =
        match i mod 3 with
        | 0 => create_definition_question randbelow sentences key_terms
        | 1 => create_comprehension_question randbelow sentences key_terms
        | _ => ret (create_inference_question sentences key_terms)
        end)
  /\ exists q0 q1 g1 g2,
       create_definition_question randbelow sentences key_terms g
         = Returns (q0, g1)
       /\ create_comprehension_question randbelow sentences key_terms g1
            = Returns (q1, g2)
       /\ generate_quiz_questions randbelow text g =
            Returns ([q0; q1; create_inference_question sentences key_terms],
                     g2)
       /\ definition_record key_terms q0
       /\ comprehension_record sentences q1.
Proof.
  intros sentences key_terms. split.
  - intros i. unfold create_question, question_types.
    change (List.length _) with 3.
    pose proof (Nat.mod_upper_bound i 3 ltac:(lia)) as Hi.
    destruct (i mod 3) as [|[|[|k]]]; try reflexivity. lia.
  - rewrite generate_quiz_questions_unrolled. fold sentences key_terms.
    destruct (definition_slot rng randbelow randbelow_lt sentences key_terms g)
      as (q0 & g1 & Hq0 & H0).
    destruct (comprehension_slot rng randbelow randbelow_lt
                sentences key_terms g1) as (q1 & g2 & Hq1 & H1).
    exists q0, q1, g1, g2. rewrite Hq0, Hq1. repeat split; trivial.
Qed.

(** C7.  When there is a sentence, the Comprehension strategy draws one
    index below the number of candidates, the first 3 sentences or all of
    them if there are fewer, and takes the sentence at that index; the
    correct answer is "The text mentions: ", then the first 50 characters of
    that sentence (the whole sentence when it has at most 50), then "...".
    Every candidate is the choice for some random source. *)
Theorem comprehension_answer
    (rng : Type) (randbelow : nat -> rng -> nat * rng)
    (randbelow_lt : in_range randbelow)
    (sentences key_terms : list string) (g : rng) :
  sentences <> [] ->
  let n := Nat.min 3 (List.length sentences) in
  let j := fst (randbelow n g) in
  (exists sentence q g',
      create_comprehension_question randbelow sentences key_terms g
        = Returns (q, g')
      /\ j < n
      /\ nth_error sentences j = Some sentence
      /\ located q ("The text mentions: " ++ slice_to 50 sentence ++ "...")
      /\ (exists rest, sentence = slice_to 50 sentence ++ rest)
      /\ String.length (slice_to 50 sentence)
         = Nat.min 50 (String.length sentence)
      /\ (String.length sentence <= 50 -> slice_to 50 sentence = sentence))
  /\ (forall k sentence,
        k < n -> nth_error sentences k = Some sentence ->
        exists (tape_g : tape) q g',
          create_comprehension_question tape_randbelow sentences key_terms
                                        tape_g = Returns (q, g')
          /\ located q (comprehension_correct_answer sentence)).
Proof.
  intros Hne n j.
  assert (Hlen : List.length (firstn 3 sentences) = n)
    by apply length_firstn.
  split.
  - destruct (create_comprehension_question_Returns rng randbelow randbelow_lt
                sentences key_terms g Hne)
      as (sentence & opts & idx & g' & Hq & Hnth & Hperm & Hidx & Hopt).
    rewrite Hlen in Hnth. fold j in Hnth.
    assert (Hj : j < n).
    { rewrite <- Hlen. apply nth_error_Some. congruence. }
    exists sentence; eexists; exists g'. split; [exact Hq|].
    split; [exact Hj|].
    split. { rewrite nth_error_firstn in Hnth.
             destruct (Nat.ltb_spec j 3); [exact Hnth|lia]. }
    split; [split; assumption|].
    split; [apply slice_to_prefix|].
    split; [apply slice_to_length|apply slice_to_short].
  - intros k sentence Hk Hsent.
    assert (Hin : in_range tape_randbelow).
    { intros m [|r t] Hm; simpl; [exact Hm|].
      now apply Nat.mod_upper_bound, Nat.neq_0_lt_0. }
    destruct (create_comprehension_question_Returns tape tape_randbelow Hin
                sentences key_terms [k] Hne)
      as (s' & opts & idx & g' & Hq & Hnth & Hperm & Hidx & Hopt).
    rewrite Hlen in Hnth. unfold tape_randbelow in Hnth. cbn [fst] in Hnth.
    rewrite (Nat.mod_small k n Hk) in Hnth.
    rewrite nth_error_firstn in Hnth.
    destruct (Nat.ltb_spec k 3); [|lia].
    assert (s' = sentence) by congruence. subst s'.
    exists [k]; eexists; exists g'. split; [exact Hq|].
    split; assumption.
Qed.

(** C10.  For every term and every sentence, the four options that the
    Definition and the Comprehension strategies put in the list before
    shuffling are pairwise distinct; hence in the shuffled options of the
    record returned, the designated answer sits at one position only, the
    correct index. *)
Theorem options_pairwise_distinct
    (rng : Type) (randbelow : nat -> rng -> nat * rng)
    (randbelow_lt : in_range randbelow) :
  (forall term, NoDup (definition_options term))
  /\ (forall sentence, NoDup (comprehension_options sentence))
  /\ (forall sentences key_terms g,
        key_terms <> [] ->
        exists term q g',
          create_definition_question randbelow sentences key_terms g
            = Returns (q, g')
          /\ In term (firstn 5 key_terms)
          /\ Permutation (definition_options term) (options q)
          /\ NoDup (options q)
          /\ forall j, nth_error (options q) j
                         = Some (definition_correct_answer term)
                       <-> j = correct_answer q)
  /\ (forall sentences key_terms g,
        sentences <> [] ->
        exists sentence q g',
          create_comprehension_question randbelow sentences key_terms g
            = Returns (q, g')
          /\ In sentence (firstn 3 sentences)
          /\ Permutation (comprehension_options sentence) (options q)
          /\ NoDup (options q)
          /\ forall j, nth_error (options q) j
                         = Some (comprehension_correct_answer sentence)
                       <-> j = correct_answer q).
Proof.
  split; [exact definition_options_NoDup|].
  split; [exact comprehension_options_NoDup|].
  split.
  - intros sentences key_terms g Hne.
    destruct (create_definition_question_Returns rng randbelow randbelow_lt
                sentences key_terms g Hne)
      as (term & opts & idx & g' & Hq & Hnth & Hperm & Hidx & Hopt).
    assert (Hnd : NoDup opts)
      by exact (Permutation_NoDup Hperm (definition_options_NoDup term)).
    exists term; eexists; exists g'. split; [exact Hq|].
    split; [eapply nth_error_In; exact Hnth|].
    split; [exact Hperm|]. split; [exact Hnd|].
    intros j. apply located_unique; [exact Hnd|]. split; assumption.
  - intros sentences key_terms g Hne.
    destruct (create_comprehension_question_Returns rng randbelow randbelow_lt
                sentences key_terms g Hne)
      as (sentence & opts & idx & g' & Hq & Hnth & Hperm & Hidx & Hopt).
    assert (Hnd : NoDup opts)
      by exact (Permutation_NoDup Hperm
                  (comprehension_options_NoDup sentence)).
    exists sentence; eexists; exists g'. split; [exact Hq|].
    split; [eapply nth_error_In; exact Hnth|].
    split; [exact Hperm|]. split; [exact Hnd|].
    intros j. apply located_unique; [exact Hnd|]. split; assumption.
Qed.

(** ** Assignments *)

Lemma assignment_templates_NoDup : NoDup assignment_templates.
Proof.
  unfold assignment_templates.
  repeat constructor; simpl; intros H;
    repeat match goal with
      | H : _ \/ _ |- _ => destruct H as [H|H]
      | H : False |- _ => destruct H
      end; discriminate H.
Qed.

(** Each template is a text without braces followed by the one field. *)
Lemma format_template template subject :
  In template assignment_templates ->
  exists pre, template = pre ++ "{}"
              /\ format template subject = Returns (pre ++ subject).
Proof.
  unfold assignment_templates. simpl.
  intros H;
    repeat match goal with
      | H : _ \/ _ |- _ => destruct H as [H|H]
      | H : False |- _ => destruct H
      end; subst template;
    match goal with
    | |- exists pre, ?t = _ /\ _ =>
        exists (substring 0 (String.length t - 2) t)
    end;
    (split; [reflexivity|]);
    unfold format; cbn; rewrite append_nil_r; reflexivity.
Qed.

Section Sampling.

Variable rng : Type.
Variable randbelow : nat -> rng -> nat * rng.
Hypothesis randbelow_lt : in_range randbelow.

(** Two draws without replacement: two different positions. *)
Lemma sample_two {A} (population : list A) g :
  2 <= List.length population ->
  exists i j a b g',
    sample randbelow population 2 g = Returns ([a; b], g')
    /\ i <> j
    /\ nth_error population i = Some a
    /\ nth_error population j = Some b.
Proof.
  intros Hn. unfold sample.
  destruct (Nat.leb_spec 2 (List.length population)) as [_|]; [|lia].
  set (n := List.length population) in *.
  cbn [sample_loop]. unfold bind, draw, lift, ret.
  assert (Hj1 : fst (randbelow n g) < n) by (apply randbelow_lt; lia).
  destruct (randbelow n g) as [j1 g1]. simpl in Hj1.
  destruct (getitem_Returns population j1 Hj1) as (a & -> & Ha).
  destruct (getitem_Returns population (n - 1)) as (m & -> & Hm);
    [fold n; lia|].
  destruct (setitem_Returns population j1 m Hj1)
    as (pool1 & -> & Hlen1 & Hnth1).
  assert (Hj2 : fst (randbelow (n - 1) g1) < n - 1)
    by (apply randbelow_lt; lia).
  destruct (randbelow (n - 1) g1) as [j2 g2]. simpl in Hj2.
  destruct (getitem_Returns pool1 j2) as (b & -> & Hb); [fold n in Hlen1; lia|].
  destruct (getitem_Returns pool1 (n - 1 - 1)) as (m2 & -> & Hm2);
    [fold n in Hlen1; lia|].
  destruct (setitem_Returns pool1 j2 m2) as (pool2 & -> & _);
    [fold n in Hlen1; lia|].
  rewrite Hnth1 in Hb.
  destruct (Nat.eqb_spec j2 j1) as [->|Hne].
  - exists j1, (n - 1), a, b, g2. repeat split; trivial; [lia|congruence].
  - exists j1, j2, a, b, g2. repeat split; trivial. congruence.
Qed.

Lemma generate_assignments_Returns text topic g :
  exists i j t1 t2 pre1 pre2 g',
    generate_assignments randbelow text topic g
      = Returns ([pre1 ++ resolve_subject text topic;
                  pre2 ++ resolve_subject text topic], g')
    /\ i <> j
    /\ nth_error assignment_templates i = Some t1
    /\ nth_error assignment_templates j = Some t2
    /\ t1 = pre1 ++ "{}" /\ t2 = pre2 ++ "{}"
    /\ format t1 (resolve_subject text topic)
       = Returns (pre1 ++ resolve_subject text topic)
    /\ format t2 (resolve_subject text topic)
       = Returns (pre2 ++ resolve_subject text topic).
Proof.
  unfold generate_assignments.
  destruct (sample_two assignment_templates g)
    as (i & j & t1 & t2 & g' & Hs & Hij & Hi & Hj);
    [simpl; lia|].
  destruct (format_template t1 (resolve_subject text topic))
    as (pre1 & Ht1 & Hf1); [eapply nth_error_In; exact Hi|].
  destruct (format_template t2 (resolve_subject text topic))
    as (pre2 & Ht2 & Hf2); [eapply nth_error_In; exact Hj|].
  exists i, j, t1, t2, pre1, pre2, g'.
  unfold bind at 1. rewrite Hs. cbn [for_each].
  unfold bind, lift, ret. rewrite Hf1, Hf2.
  repeat split; assumption.
Qed.

End Sampling.

(** C5.  For every text and topic, [generate_assignments] returns exactly
    2 prompts, made from the templates at two different positions of the
    pool of 8, hence from two different templates; the two prompts differ,
    and each is its template with the one resolved subject in the place of
    the field, so it contains the subject. *)
Theorem two_distinct_assignments
    (rng : Type) (randbelow : nat -> rng -> nat * rng)
    (randbelow_lt : in_range randbelow)
    (text : string) (topic : option string) (g : rng) :
  let subject := resolve_subject text topic in
  List.length assignment_templates = 8
  /\ exists i j t1 t2 a1 a2 g',
       generate_assignments randbelow text topic g = Returns ([a1; a2], g')
       /\ i <> j
       /\ nth_error assignment_templates i = Some t1
       /\ nth_error assignment_templates j = Some t2
       /\ t1 <> t2
       /\ format t1 subject = Returns a1
       /\ format t2 subject = Returns a2
       /\ a1 <> a2
       /\ contains a1 subject
       /\ contains a2 subject.
Proof.
  intros subject. split; [reflexivity|].
  destruct (generate_assignments_Returns rng randbelow randbelow_lt
              text topic g)
    as (i & j & t1 & t2 & pre1 & pre2 & g' & Hg & Hij & Hi & Hj
        & Ht1 & Ht2 & Hf1 & Hf2).
  fold subject in Hg, Hf1, Hf2.
  assert (Ht : t1 <> t2).
  { intros Heq. apply Hij.
    apply (proj1 (NoDup_nth_error assignment_templates)
                 assignment_templates_NoDup).
    - apply nth_error_Some. congruence.
    - congruence. }
  exists i, j, t1, t2, (pre1 ++ subject), (pre2 ++ subject), g'.
  repeat split; trivial.
  - intros Heq. apply append_inj_l in Heq. congruence.
  - exists pre1, "". now rewrite append_nil_r.
  - exists pre2, "". now rewrite append_nil_r.
Qed.

(** C6.  For every text and topic, neither generator raises: under any
    random source [generate_assignments] returns 2 prompts and
    [generate_quiz_questions] returns 3 records; without key terms the
    first record, and without sentences the second, is the Fallback
    record, which has a fixed question, 4 fixed options and the correct
    index 0. *)
Theorem generation_never_raises
    (rng : Type) (randbelow : nat -> rng -> nat * rng)
    (randbelow_lt : in_range randbelow)
    (text : string) (topic : option string) (g1 g2 : rng) :
  (exists a1 a2 g',
      generate_assignments randbelow text topic g1 = Returns ([a1; a2], g'))
  /\ (exists q0 q1 q2 g',
        generate_quiz_questions randbelow text g2
          = Returns ([q0; q1; q2], g')
        /\ (extract_key_terms text = [] ->
            q0 = create_fallback_question (extract_sentences text))
        /\ (extract_sentences text = [] ->
            q1 = create_fallback_question (extract_sentences text)))
  /\ (forall sentences,
        question (create_fallback_question sentences)
          = "What is the primary characteristic of the provided text?"
        /\ options (create_fallback_question sentences)
           = ["It contains informative content";
              "It is completely empty";
              "It consists only of numbers";
              "It is written in a foreign language"]
        /\ correct_answer (create_fallback_question sentences) = 0).
Proof.
  split; [|split].
  - destruct (generate_assignments_Returns rng randbelow randbelow_lt
                text topic g1)
      as (i & j & t1 & t2 & pre1 & pre2 & g' & Hg & _).
    now exists (pre1 ++ resolve_subject text topic),
               (pre2 ++ resolve_subject text topic), g'.
  - rewrite generate_quiz_questions_unrolled.
    destruct (definition_slot rng randbelow randbelow_lt
                (extract_sentences text) (extract_key_terms text) g2)
      as (q0 & s1 & -> & H0).
    destruct (comprehension_slot rng randbelow randbelow_lt
                (extract_sentences text) (extract_key_terms text) s1)
      as (q1 & s2 & -> & H1).
    exists q0, q1, (create_inference_question (extract_sentences text)
                                             (extract_key_terms text)), s2.
    split; [reflexivity|]. split.
    + intros Hk. rewrite Hk in H0. exact H0.
    + intros Hs. rewrite Hs in H1. exact H1.
  - intros sentences. repeat split.
Qed.

(** ** Tokens and digits *)

(** C2, as the specification words it, fails: in "abc123def" the maximal
    runs of letters are "abc" and "def", but the pattern finds no word,
    since there is no word boundary between a letter and a digit. *)
Lemma digit_does_not_split_a_token :
  letter_runs "abc123def" = ["abc"; "def"]
  /\ words_of "abc123def" = []
  /\ words_of "abc123def" <> letter_runs "abc123def".
Proof. repeat split. vm_compute. discriminate. Qed.

(** C2, amended.  For every text, the tokens are those maximal runs of word
    characters (letters, digits, underscore) of the lowercased text that
    consist of ASCII letters only: the separators are the characters that
    are no word characters, and a run of letters next to a digit or an
    underscore is part of a mixed run, which yields no token. *)
Theorem words_are_letter_only_word_runs (text : string) :
  words_of text =
    filter (all_chars is_ascii_letter) (runs is_word (lower text)).
Proof.
  unfold words_of, findall_words.
  now rewrite (findall_from_runs (lower text) 0 None).
Qed.

(** ** The statements at concrete inputs *)

Lemma tape_randbelow_in_range : in_range tape_randbelow.
Proof.
  intros n [|r g] Hn; simpl; [exact Hn|].
  apply Nat.mod_upper_bound. lia.
Qed.

Example key_terms_cats :
  extract_key_terms cats = ["cats"; "nice"; "furry"; "animals"; "purr"].
Proof. reflexivity. Qed.

Example sentences_cats :
  extract_sentences cats = ["Cats are nice"; "Cats are furry animals that purr"].
Proof. reflexivity. Qed.

Example subject_cats : resolve_subject cats None = "the concept of cats".
Proof. reflexivity. Qed.

Example degenerate_text :
  extract_key_terms "x" = [] /\ extract_sentences "x" = []
  /\ resolve_subject "x" None = "the given content"
  /\ resolve_subject "x" (Some "") = "the given content"
  /\ resolve_subject "x" (Some "Biology") = "Biology".
Proof. repeat split. Qed.

Example ties_keep_first_seen_order :
  extract_key_terms "zeta alpha beta beta alpha gamma zeta zeta"
    = ["zeta"; "alpha"; "beta"; "gamma"].
Proof. reflexivity. Qed.

Example separators_and_mixed_runs :
  words_of "abc 123 def, it's x_ray Hello2 World!"
    = ["abc"; "def"; "it"; "s"; "world"].
Proof. reflexivity. Qed.

Example split_keeps_empty_ends :
  split_terminators ".a..b." = [""; "a"; "b"; ""].
Proof. reflexivity. Qed.

Example assignments_cats :
  output (generate_assignments tape_randbelow cats None [3; 3])
    = Returns
        ["Compare and contrast different viewpoints on: the concept of cats";
         "Assess the strengths and weaknesses of: the concept of cats"].
Proof. reflexivity. Qed.

Lemma correct_index_tracks_answer_witness :
  in_range tape_randbelow
  /\ exists q0 q1 q2 g',
       generate_quiz_questions tape_randbelow cats [1; 2; 0; 1; 1; 3; 1; 0]
         = Returns ([q0; q1; q2], g')
       /\ definition_record (extract_key_terms cats) q0
       /\ comprehension_record (extract_sentences cats) q1
       /\ located q2 inference_correct_answer
       /\ located (create_fallback_question []) fallback_correct_answer.
Proof.
  split; [exact tape_randbelow_in_range|].
  exact (correct_index_tracks_answer tape tape_randbelow
           tape_randbelow_in_range cats [1; 2; 0; 1; 1; 3; 1; 0]).
Defined.

Lemma three_questions_in_fixed_order_witness :
  in_range tape_randbelow
  /\ exists q0 q1 g1 g2,
       create_definition_question tape_randbelow
         (extract_sentences cats) (extract_key_terms cats) [4; 0; 1; 0]
         = Returns (q0, g1)
       /\ create_comprehension_question tape_randbelow
            (extract_sentences cats) (extract_key_terms cats) g1
          = Returns (q1, g2)
       /\ generate_quiz_questions tape_randbelow cats [4; 0; 1; 0] =
            Returns ([q0; q1;
                      create_inference_question
                        (extract_sentences cats) (extract_key_terms cats)],
                     g2)
       /\ definition_record (extract_key_terms cats) q0
       /\ comprehension_record (extract_sentences cats) q1.
Proof.
  split; [exact tape_randbelow_in_range|].
  exact (proj2 (three_questions_in_fixed_order tape tape_randbelow
                  tape_randbelow_in_range cats [4; 0; 1; 0])).
Defined.

Lemma two_distinct_assignments_witness :
  in_range tape_randbelow
  /\ exists i j t1 t2 a1 a2 g',
       generate_assignments tape_randbelow cats None [5; 5]
         = Returns ([a1; a2], g')
       /\ i <> j
       /\ nth_error assignment_templates i = Some t1
       /\ nth_error assignment_templates j = Some t2
       /\ t1 <> t2
       /\ format t1 (resolve_subject cats None) = Returns a1
       /\ format t2 (resolve_subject cats None) = Returns a2
       /\ a1 <> a2
       /\ contains a1 (resolve_subject cats None)
       /\ contains a2 (resolve_subject cats None).
Proof.
  split; [exact tape_randbelow_in_range|].
  exact (proj2 (two_distinct_assignments tape tape_randbelow
                  tape_randbelow_in_range cats None [5; 5])).
Defined.

Lemma generation_never_raises_witness :
  in_range tape_randbelow
  /\ (exists a1 a2 g',
        generate_assignments tape_randbelow "x" (Some "") [7; 6]
          = Returns ([a1; a2], g'))
  /\ (exists q0 q1 q2 g',
        generate_quiz_questions tape_randbelow "x" []
          = Returns ([q0; q1; q2], g')
        /\ (extract_key_terms "x" = [] ->
            q0 = create_fallback_question (extract_sentences "x"))
        /\ (extract_sentences "x" = [] ->
            q1 = create_fallback_question (extract_sentences "x"))).
Proof.
  split; [exact tape_randbelow_in_range|].
  pose proof (generation_never_raises tape tape_randbelow
                tape_randbelow_in_range "x" (Some "") [7; 6] [])
    as (Ha & Hq & _).
  split; assumption.
Defined.

Lemma comprehension_answer_witness :
  in_range tape_randbelow
  /\ extract_sentences cats <> []
  /\ exists sentence q g',
       create_comprehension_question tape_randbelow
         (extract_sentences cats) (extract_key_terms cats) [1; 0; 2; 1]
         = Returns (q, g')
       /\ fst (tape_randbelow 2 [1; 0; 2; 1]) < 2
       /\ nth_error (extract_sentences cats)
            (fst (tape_randbelow 2 [1; 0; 2; 1])) = Some sentence
       /\ located q ("The text mentions: " ++ slice_to 50 sentence ++ "...")
       /\ (exists rest, sentence = slice_to 50 sentence ++ rest)
       /\ String.length (slice_to 50 sentence)
          = Nat.min 50 (String.length sentence)
       /\ (String.length sentence <= 50 -> slice_to 50 sentence = sentence).
Proof.
  assert (Hne : extract_sentences cats <> []) by (vm_compute; discriminate).
  split; [exact tape_randbelow_in_range|]. split; [exact Hne|].
  exact (proj1 (comprehension_answer tape tape_randbelow
                  tape_randbelow_in_range
                  (extract_sentences cats) (extract_key_terms cats)
                  [1; 0; 2; 1] Hne)).
Defined.

Lemma options_pairwise_distinct_witness :
  in_range tape_randbelow
  /\ NoDup (definition_options "cats")
  /\ NoDup (comprehension_options "Cats are nice")
  /\ exists term q g',
       create_definition_question tape_randbelow
         (extract_sentences cats) (extract_key_terms cats) [2; 1; 1; 0]
         = Returns (q, g')
       /\ In term (firstn 5 (extract_key_terms cats))
       /\ Permutation (definition_options term) (options q)
       /\ NoDup (options q)
       /\ forall j, nth_error (options q) j
                      = Some (definition_correct_answer term)
                    <-> j = correct_answer q.
Proof.
  assert (Hne : extract_key_terms cats <> []) by (vm_compute; discriminate).
  split; [exact tape_randbelow_in_range|].
  pose proof (options_pairwise_distinct tape tape_randbelow
                tape_randbelow_in_range) as (Hd & Hc & Hq & _).
  split; [apply Hd|]. split; [apply Hc|]. now apply Hq.
Defined.

(** * Further properties of the analyzer and of the records *)

(** ** The counting loop and the ranking *)

(** X4.  After the counting loop, [term_freq] holds each word of
    [key_terms] once, in the order of first occurrence, with the number of
    its occurrences; a word that is no key has the count 0. *)
Theorem count_terms_lookup (key_terms : list string) :
  map fst (count_terms key_terms) = dedup key_terms
  /\ NoDup (map fst (count_terms key_terms))
  /\ forall term,
       dict_get (count_terms key_terms) term 0
         = count_occ string_dec key_terms term.
Proof.
  rewrite count_terms_tally, tally_keys.
  split; [reflexivity|]. split; [apply dedup_NoDup|].
  intros term. unfold tally. rewrite dict_get_map.
  destruct (in_dec string_dec term (dedup key_terms)) as [Hin|Hnin];
    [reflexivity|].
  symmetry. apply count_occ_not_In. intros H. apply Hnin.
  now apply dedup_In.
Qed.

Lemma sorted_terms_complete text w :
  In w (words_of text) -> keep_word w = true ->
  In (w, frequency text w)
     (sorted_desc (count_terms (filter keep_word (words_of text)))).
Proof.
  intros Hin Hkeep.
  apply (Permutation_in _ (sorted_desc_perm _)).
  rewrite count_terms_tally. unfold tally. apply in_map_iff.
  exists w. split.
  - f_equal. unfold frequency. now apply count_occ_filter.
  - apply dedup_In. apply filter_In. now split.
Qed.

Lemma extract_key_terms_length text :
  List.length (extract_key_terms text)
  = Nat.min 10 (List.length (dedup (filter keep_word (words_of text)))).
Proof.
  unfold extract_key_terms. rewrite length_map, length_firstn.
  rewrite <- (Permutation_length (sorted_desc_perm _)).
  rewrite count_terms_tally. unfold tally. now rewrite length_map.
Qed.

(** X1.  [extract_key_terms] returns as many terms as the text has
    distinct kept words, up to 10; it returns none exactly when no token of
    the text is kept, and then the subject is "the given content". *)
Theorem extract_key_terms_empty (text : string) :
  List.length (extract_key_terms text)
  = Nat.min 10 (List.length (dedup (filter keep_word (words_of text))))
  /\ (extract_key_terms text = [] <->
      forall w, In w (words_of text) -> keep_word w = false)
  /\ (extract_key_terms text = [] ->
      extract_main_subject text = "the given content").
Proof.
  split; [apply extract_key_terms_length|]. split.
  - split.
    + intros Hnil w Hin. destruct (keep_word w) eqn:Hkeep; [|reflexivity].
      pose proof (extract_key_terms_length text) as Hlen.
      rewrite Hnil in Hlen. simpl in Hlen.
      assert (Hw : In w (dedup (filter keep_word (words_of text)))).
      { apply dedup_In. apply filter_In. now split. }
      destruct (dedup (filter keep_word (words_of text))); [destruct Hw|].
      simpl in Hlen. discriminate Hlen.
    + intros Hnone.
      assert (Hk : filter keep_word (words_of text) = []).
      { destruct (filter keep_word (words_of text)) as [|w l] eqn:Hf;
          [reflexivity|].
        assert (Hw : In w (filter keep_word (words_of text)))
          by (rewrite Hf; now left).
        apply filter_In in Hw as [Hin Hkeep].
        rewrite (Hnone w Hin) in Hkeep. discriminate Hkeep. }
      unfold extract_key_terms. now rewrite Hk.
  - intros Hnil. unfold extract_main_subject. now rewrite Hnil.
Qed.

(** X2.  When there is a key term, the subject is "the concept of "
    followed by the first one, and no kept word of the text is more
    frequent than it; a kept word just as frequent does not occur
    earlier. *)
Theorem main_subject_most_frequent (text top : string) (others : list string) :
  extract_key_terms text = top :: others ->
  extract_main_subject text = "the concept of " ++ top
  /\ forall w,
       In w (words_of text) -> keep_word w = true ->
       frequency text w <= frequency text top
       /\ (frequency text w = frequency text top ->
           first_occurrence text top <= first_occurrence text w).
Proof.
  intros Hterms. split.
  { unfold extract_main_subject. now rewrite Hterms. }
  intros w Hin Hkeep.
  pose proof (sorted_terms_complete text w Hin Hkeep) as Hw.
  pose proof (sorted_terms_ranked text) as Hsorted.
  unfold extract_key_terms in Hterms.
  destruct (sorted_desc (count_terms (filter keep_word (words_of text))))
    as [|p ps] eqn:Hs; [discriminate Hterms|].
  simpl in Hterms. injection Hterms as Htop _.
  assert (Hp : snd p = frequency text (fst p)).
  { apply (sorted_terms_entries text p). rewrite Hs. now left. }
  rewrite Htop in Hp.
  destruct Hw as [Hw|Hw].
  - subst p. simpl in Htop. subst w. split; [lia|]. intros _. lia.
  - apply StronglySorted_inv in Hsorted as [_ Hall].
    rewrite Forall_forall in Hall. specialize (Hall _ Hw).
    unfold before in Hall. simpl in Hall. rewrite Htop in Hall. lia.
Qed.

Lemma StronglySorted_app_inv {A} (R : A -> A -> Prop) l1 l2 :
  StronglySorted R (l1 ++ l2)%list ->
  forall a b, In a l1 -> In b l2 -> R a b.
Proof.
  induction l1 as [|x l1 IH]; simpl; intros Hs a b Ha Hb; [destruct Ha|].
  apply StronglySorted_inv in Hs as [Hs Hall].
  destruct Ha as [->|Ha]; [|now apply IH].
  rewrite Forall_forall in Hall. apply Hall. apply in_or_app. now right.
Qed.

(** X3.  The cut after 10 terms drops the lowest ranked only: a kept word
    that is not returned leaves 10 terms returned, each at least as
    frequent as it, and earlier in the text when just as frequent. *)
Theorem dropped_terms_rank_last (text w : string) :
  In w (words_of text) -> keep_word w = true ->
  ~ In w (extract_key_terms text) ->
  List.length (extract_key_terms text) = 10
  /\ forall t, In t (extract_key_terms text) ->
       frequency text w <= frequency text t
       /\ (frequency text w = frequency text t ->
           first_occurrence text t < first_occurrence text w).
Proof.
  intros Hin Hkeep Hout.
  pose proof (sorted_terms_complete text w Hin Hkeep) as Hw.
  pose proof (sorted_terms_ranked text) as Hsorted.
  unfold extract_key_terms in *.
  set (sorted_terms := sorted_desc _) in *.
  rewrite <- (firstn_skipn 10 sorted_terms) in Hw, Hsorted.
  apply in_app_or in Hw as [Hw|Hw].
  { exfalso. apply Hout. apply in_map_iff. now exists (w, frequency text w). }
  split.
  - rewrite length_map, length_firstn.
    assert (Hlen : 10 < List.length sorted_terms).
    { destruct (Nat.lt_ge_cases 10 (List.length sorted_terms)) as [H|H];
        [exact H|].
      rewrite skipn_all2 in Hw by exact H. destruct Hw. }
    lia.
  - intros t Ht. apply in_map_iff in Ht as (p & <- & Hp).
    pose proof (StronglySorted_app_inv _ _ _ Hsorted _ _ Hp Hw) as Hpw.
    apply In_firstn, sorted_terms_entries in Hp as (_ & _ & Hfp).
    unfold before in Hpw. simpl in Hpw. lia.
Qed.

(** ** Case, separators and joined texts *)

Lemma lower_char_idempotent c : lower_char (lower_char c) = lower_char c.
Proof. each_char c; reflexivity. Qed.

Lemma lower_idempotent s : lower (lower s) = lower s.
Proof.
  induction s as [|c s IH]; simpl; [reflexivity|].
  now rewrite lower_char_idempotent, IH.
Qed.

Lemma lower_append (a b : string) : lower (a ++ b) = lower a ++ lower b.
Proof. induction a as [|c a IH]; simpl; [reflexivity|now rewrite IH]. Qed.

Lemma lower_char_not_word c : is_word c = false -> is_word (lower_char c) = false.
Proof. each_char c; intros H; solve [reflexivity | discriminate H]. Qed.

(** X5.  Key terms do not depend on the case of the text: the lowercased
    text has the same tokens, hence the same key terms and the same
    frequencies. *)
Theorem extract_key_terms_ignores_case (text : string) :
  words_of (lower text) = words_of text
  /\ extract_key_terms (lower text) = extract_key_terms text
  /\ forall term, frequency (lower text) term = frequency text term.
Proof.
  assert (Hw : words_of (lower text) = words_of text).
  { unfold words_of. now rewrite lower_idempotent. }
  split; [exact Hw|]. split.
  - unfold extract_key_terms. now rewrite Hw.
  - intros term. unfold frequency. now rewrite Hw.
Qed.

Lemma starts_with_append p (a : string) c b :
  p c = false -> starts_with p (a ++ String c b) = starts_with p a.
Proof. intros Hc. destruct a; simpl; [exact Hc|reflexivity]. Qed.

Lemma runs_starts p s :
  starts_with p s = true -> exists r rs, runs p s = r :: rs.
Proof.
  destruct s as [|c s]; [discriminate|]. unfold starts_with.
  intros Hc. rewrite (runs_span p c s Hc). eauto.
Qed.

(** A character outside the class ends every run: the runs of a text cut
    by it are the runs of the two parts. *)
Lemma runs_append p (a : string) c b :
  p c = false ->
  runs p (a ++ String c b) = (runs p a ++ runs p b)%list.
Proof.
  intros Hc. induction a as [|d a IH].
  - simpl append. now rewrite runs_skip.
  - change (String d a ++ String c b) with (String d (a ++ String c b)).
    simpl runs. rewrite IH, (starts_with_append p a c b Hc).
    destruct (p d); [|reflexivity].
    destruct (starts_with p a) eqn:Hs; [|reflexivity].
    destruct (runs_starts p a Hs) as (r & rs & ->). reflexivity.
Qed.

(** X6.  A character that is no word character separates tokens: the
    tokens of two texts joined by it are the tokens of the first followed by
    those of the second, so the frequencies of a word add up. *)
Theorem words_of_joined (a b : string) (c : ascii) :
  is_word c = false ->
  words_of (a ++ String c b) = (words_of a ++ words_of b)%list
  /\ forall term,
       frequency (a ++ String c b) term = frequency a term + frequency b term.
Proof.
  intros Hc.
  assert (Hw : words_of (a ++ String c b) = (words_of a ++ words_of b)%list).
  { unfold words_of, findall_words.
    rewrite !(findall_from_runs _ 0 None). simpl is_word_opt. cbv iota.
    rewrite lower_append. simpl lower.
    rewrite (runs_append is_word _ _ _ (lower_char_not_word c Hc)).
    apply filter_app. }
  split; [exact Hw|].
  intros term. unfold frequency. rewrite Hw. apply count_occ_app.
Qed.

Lemma extract_sentences_runs text :
  extract_sentences text =
    map strip
      (filter (fun piece => (10 <? String.length (strip piece))%nat)
              (runs not_terminator text)).
Proof.
  unfold extract_sentences, split_terminators. f_equal.
  rewrite <- (split_from_runs text false EmptyString) by discriminate.
  symmetry. apply filter_implied.
  intros [|c s]; [discriminate|reflexivity].
Qed.

(** X7.  The sentences of two texts joined by [.], [!] or [?] are the
    sentences of the first followed by those of the second. *)
Theorem extract_sentences_joined (a b : string) (c : ascii) :
  is_terminator c = true ->
  extract_sentences (a ++ String c b)
  = (extract_sentences a ++ extract_sentences b)%list.
Proof.
  intros Hc. rewrite !extract_sentences_runs.
  rewrite (runs_append not_terminator a c b).
  - now rewrite filter_app, map_app.
  - unfold not_terminator. now rewrite Hc.
Qed.

Lemma take_while_all p s : all_chars p s = true -> take_while p s = s.
Proof.
  induction s as [|c s IH]; simpl; [reflexivity|].
  intros H. apply andb_true_iff in H as [-> Hs]. now rewrite IH.
Qed.

Lemma drop_while_all p s : all_chars p s = true -> drop_while p s = "".
Proof.
  induction s as [|c s IH]; simpl; [reflexivity|].
  intros H. apply andb_true_iff in H as [-> Hs]. now apply IH.
Qed.

Lemma runs_single p s :
  all_chars p s = true -> s <> "" -> runs p s = [s].
Proof.
  destruct s as [|c s]; [congruence|]. intros Hall _.
  simpl in Hall. apply andb_true_iff in Hall as [Hc Hs].
  now rewrite (runs_span p c s Hc), (take_while_all p s Hs),
              (drop_while_all p s Hs).
Qed.

Lemma lstrip_fixed s : is_space_opt (peek s) = false -> lstrip s = s.
Proof. destruct s as [|c s]; simpl; [reflexivity|]. now intros ->. Qed.

Lemma rstrip_fixed s : is_space_opt (last_char s) = false -> rstrip s = s.
Proof.
  induction s as [|c s IH]; [reflexivity|].
  destruct s as [|d s].
  - simpl. now intros ->.
  - intros Hlast. change (last_char (String c (String d s)))
      with (last_char (String d s)) in Hlast.
    specialize (IH Hlast). simpl rstrip in IH |- *.
    simpl. simpl in IH. rewrite IH. reflexivity.
Qed.

Lemma strip_fixed s : trimmed s -> strip s = s.
Proof.
  intros [Hhead Hlast]. unfold strip.
  rewrite (lstrip_fixed s Hhead). now apply rstrip_fixed.
Qed.

(** X8.  A sentence that [extract_sentences] returns is a sentence of
    its own: segmenting it again gives it back, alone. *)
Theorem extract_sentences_fixed (text s : string) :
  In s (extract_sentences text) -> extract_sentences s = [s].
Proof.
  intros Hs. rewrite extract_sentences_runs in Hs.
  apply in_map_iff in Hs as (piece & <- & Hp).
  apply filter_In in Hp as [Hrun Hlen].
  assert (Hall : all_chars not_terminator (strip piece) = true).
  { apply all_chars_rstrip, all_chars_lstrip.
    now apply runs_all_chars in Hrun. }
  assert (Hne : strip piece <> "").
  { intros Heq. rewrite Heq in Hlen. discriminate Hlen. }
  rewrite extract_sentences_runs, (runs_single _ _ Hall Hne).
  cbn [filter]. rewrite (strip_fixed _ (strip_trimmed piece)), Hlen.
  cbn [map]. now rewrite (strip_fixed _ (strip_trimmed piece)).
Qed.

Lemma runs_length p s r :
  In r (runs p s) -> String.length r <= String.length s.
Proof.
  revert r. induction s as [|c s IH]; intros r; simpl; [intros []|].
  destruct (p c).
  - destruct (starts_with p s).
    + destruct (runs p s) as [|r0 rs].
      * intros [<-|[]]. simpl. lia.
      * intros [<-|H].
        -- simpl. specialize (IH r0 (or_introl eq_refl)). lia.
        -- specialize (IH r (or_intror H)). lia.
    + intros [<-|H]; [simpl; lia|]. specialize (IH r H). lia.
  - intros H. specialize (IH r H). lia.
Qed.

(** X9.  No sentence is longer than the text, so a text of at most 10
    characters has no sentence. *)
Theorem extract_sentences_short (text : string) :
  (forall s, In s (extract_sentences text) ->
     String.length s <= String.length text)
  /\ (String.length text <= 10 -> extract_sentences text = []).
Proof.
  assert (Hle : forall s, In s (extract_sentences text) ->
                  String.length s <= String.length text
                  /\ 10 < String.length s).
  { intros s Hs. rewrite extract_sentences_runs in Hs.
    apply in_map_iff in Hs as (piece & <- & Hp).
    apply filter_In in Hp as [Hrun Hlong].
    apply runs_length in Hrun. apply Nat.ltb_lt in Hlong.
    destruct (strip_decompose piece) as (lead & trail & Hd & _ & _).
    apply (f_equal String.length) in Hd.
    rewrite !length_append in Hd. lia. }
  split; [intros s Hs; now apply Hle|].
  intros Hshort.
  destruct (extract_sentences text) as [|s l]; [reflexivity|].
  destruct (Hle s (or_introl eq_refl)) as [Hlen Hlong]. lia.
Qed.

(** ** Records and scores *)

Lemma well_formed_fixed :
  well_formed (create_fallback_question [])
  /\ forall sentences key_terms,
       well_formed (create_inference_question sentences key_terms).
Proof.
  assert (Hnd : forall a b c d : string,
             a <> b -> a <> c -> a <> d -> b <> c -> b <> d -> c <> d ->
             NoDup [a; b; c; d]).
  { intros a b c d Hab Hac Had Hbc Hbd Hcd.
    repeat constructor; simpl; intuition congruence. }
  split; [|intros sentences key_terms];
    (split; [reflexivity|]; split; [|simpl; lia]);
    apply Hnd; discriminate.
Qed.

Lemma well_formed_shuffled q opts answer :
  List.length opts = 4 -> NoDup opts ->
  Permutation opts (options q) -> located q answer -> well_formed q.
Proof.
  intros Hlen Hnd Hperm [Hnth _].
  assert (Hl : List.length (options q) = 4)
    by now rewrite <- (Permutation_length Hperm).
  split; [exact Hl|]. split; [exact (Permutation_NoDup Hperm Hnd)|].
  rewrite <- Hl. apply nth_error_Some. congruence.
Qed.

Lemma definition_record_well_formed key_terms q :
  definition_record key_terms q -> well_formed q.
Proof.
  destruct key_terms as [|t0 rest]; simpl.
  - intros ->. apply well_formed_fixed.
  - intros (term & _ & _ & _ & Hperm & Hloc).
    apply (well_formed_shuffled q (definition_options term)
                                  (definition_correct_answer term));
      trivial. apply definition_options_NoDup.
Qed.

Lemma comprehension_record_well_formed sentences q :
  comprehension_record sentences q -> well_formed q.
Proof.
  destruct sentences as [|s0 rest]; simpl.
  - intros ->. apply well_formed_fixed.
  - intros (sentence & _ & _ & _ & Hperm & Hloc).
    apply (well_formed_shuffled q (comprehension_options sentence)
                                  (comprehension_correct_answer sentence));
      trivial. apply comprehension_options_NoDup.
Qed.

(** X10.  Every record that [generate_quiz_questions] returns has four
    options, no two alike, and a correct index among [0..3], whatever the
    text and the random source: one option exactly is the marked one. *)
Theorem generated_records_well_formed
    (rng : Type) (randbelow : nat -> rng -> nat * rng)
    (randbelow_lt : in_range randbelow) (text : string) (g : rng) :
  exists quiz_questions g',
    generate_quiz_questions randbelow text g = Returns (quiz_questions, g')
    /\ List.length quiz_questions = 3
    /\ Forall well_formed quiz_questions
    /\ forall q, In q quiz_questions ->
         exists option,
           nth_error (options q) (correct_answer q) = Some option
           /\ forall j, nth_error (options q) j = Some option ->
                        j = correct_answer q.
Proof.
  rewrite generate_quiz_questions_unrolled.
  destruct (definition_slot rng randbelow randbelow_lt
              (extract_sentences text) (extract_key_terms text) g)
    as (q0 & g1 & -> & H0).
  destruct (comprehension_slot rng randbelow randbelow_lt
              (extract_sentences text) (extract_key_terms text) g1)
    as (q1 & g2 & -> & H1).
  eexists; exists g2. split; [reflexivity|]. split; [reflexivity|].
  assert (Hall : Forall well_formed
                   [q0; q1;
                    create_inference_question (extract_sentences text)
                                              (extract_key_terms text)]).
  { apply Forall_cons; [now apply definition_record_well_formed in H0|].
    apply Forall_cons; [now apply comprehension_record_well_formed in H1|].
    apply Forall_cons; [apply well_formed_fixed|apply Forall_nil]. }
  split; [exact Hall|].
  intros q Hq. rewrite Forall_forall in Hall.
  destruct (Hall q Hq) as (Hlen & Hnd & Hidx).
  destruct (nth_error (options q) (correct_answer q)) as [o|] eqn:Ho.
  - exists o. split; [reflexivity|]. intros j Hj.
    eapply NoDup_position; eauto.
  - apply nth_error_None in Ho. lia.
Qed.

Lemma quiz_score_from (l : list (nat * QuestionRecord)) acc :
  fold_left (fun score pair =>
               if (fst pair =? correct_answer (snd pair))%nat
               then score + 1 else score) l acc
  = acc + fold_left (fun score pair =>
                       if (fst pair =? correct_answer (snd pair))%nat
                       then score + 1 else score) l 0.
Proof.
  revert acc. induction l as [|[a q] l IH]; intros acc; simpl; [lia|].
  rewrite (IH (if (a =? correct_answer q)%nat then acc + 1 else acc)).
  rewrite (IH (if (a =? correct_answer q)%nat then 1 else 0)).
  destruct (a =? correct_answer q)%nat; lia.
Qed.

Lemma quiz_score_cons a user_answers q quiz_questions :
  quiz_score (a :: user_answers) (q :: quiz_questions)
  = (if (a =? correct_answer q)%nat then 1 else 0)
    + quiz_score user_answers quiz_questions.
Proof.
  unfold quiz_score. simpl. rewrite quiz_score_from.
  destruct (a =? correct_answer q)%nat; reflexivity.
Qed.

Lemma quiz_score_le user_answers quiz_questions :
  quiz_score user_answers quiz_questions <= List.length quiz_questions.
Proof.
  revert user_answers. induction quiz_questions as [|q qs IH];
    intros [|a ua]; try (unfold quiz_score; simpl; lia).
  rewrite quiz_score_cons. specialize (IH ua). simpl.
  destruct (a =? correct_answer q)%nat; lia.
Qed.

(** X11.  The score never exceeds the number of questions; answering
    every question with its correct index gives the full score, and, one
    answer per question, nothing else does. *)
Theorem quiz_score_full (user_answers : list nat)
    (quiz_questions : list QuestionRecord) :
  quiz_score user_answers quiz_questions <= List.length quiz_questions
  /\ quiz_score (map correct_answer quiz_questions) quiz_questions
     = List.length quiz_questions
  /\ (List.length user_answers = List.length quiz_questions ->
      quiz_score user_answers quiz_questions = List.length quiz_questions ->
      user_answers = map correct_answer quiz_questions).
Proof.
  split; [apply quiz_score_le|]. split.
  - induction quiz_questions as [|q qs IH]; [reflexivity|].
    simpl map. rewrite quiz_score_cons, Nat.eqb_refl, IH. reflexivity.
  - revert user_answers. induction quiz_questions as [|q qs IH];
      intros [|a ua] Hlen Hfull; try discriminate Hlen; [reflexivity|].
    rewrite quiz_score_cons in Hfull. simpl in Hfull, Hlen.
    pose proof (quiz_score_le ua qs) as Hle.
    destruct (Nat.eqb_spec a (correct_answer q)) as [->|Hne]; [|lia].
    simpl. f_equal. apply IH; lia.
Qed.

(** ** Where the shuffle puts the answer *)

Lemma shuffle_places (a b c d : string) k :
  k < 4 ->
  exists opts,
    shuffle tape_randbelow [a; b; c; d] (places k) = Returns (opts, [])
    /\ nth_error opts k = Some a
    /\ Permutation [a; b; c; d] opts.
Proof.
  intros Hk.
  destruct (shuffle_Returns tape tape_randbelow tape_randbelow_in_range
              [a; b; c; d] (places k)) as (opts & g' & Hs & Hperm).
  exists opts. destruct k as [|[|[|[|k]]]]; try lia;
    vm_compute in Hs; injection Hs as <- <-; repeat split; exact Hperm.
Qed.

Lemma answer_at_position opts answer k :
  NoDup opts -> nth_error opts k = Some answer ->
  list_index opts answer = Returns k.
Proof.
  intros Hnd Hk.
  destruct (list_index_Returns opts answer) as (i & Hi & Hnth).
  { eapply nth_error_In; exact Hk. }
  rewrite Hi. f_equal. eapply NoDup_position; eauto.
Qed.

(** X12.  The shuffle can leave the correct answer at each of the four
    positions: for every position there is a random source under which the
    Definition question, and one under which the Comprehension question,
    has that position as its correct index. *)
Theorem correct_index_takes_every_position
    (sentences key_terms : list string) (k : nat) :
  k < 4 ->
  (key_terms <> [] ->
   exists (g : tape) q g',
     create_definition_question tape_randbelow sentences key_terms g
       = Returns (q, g')
     /\ correct_answer q = k)
  /\ (sentences <> [] ->
      exists (g : tape) q g',
        create_comprehension_question tape_randbelow sentences key_terms g
          = Returns (q, g')
        /\ correct_answer q = k).
Proof.
  intros Hk. split; intros Hne.
  - assert (Hunf : forall X (a b : X),
               match key_terms with [] => a | _ :: _ => b end = b)
      by (intros; destruct key_terms; [congruence|reflexivity]).
    destruct (choice_Returns tape tape_randbelow tape_randbelow_in_range
                (firstn 5 key_terms) (0 :: places k))
      as (term & Hc & _ & _).
    { destruct key_terms; [congruence|discriminate]. }
    unfold tape_randbelow in Hc at 2. cbn [snd] in Hc.
    destruct (shuffle_places (definition_correct_answer term)
                (term ++ " is completely unrelated to the main topic")
                (term ++ " is mentioned only in passing without significance")
                ("The text contradicts common understanding of " ++ term)
                k Hk) as (opts & Hs & Hnth & Hperm).
    exists (0 :: places k). eexists; exists [].
    unfold create_definition_question. rewrite Hunf.
    unfold bind at 1. rewrite Hc.
    unfold bind at 1. unfold definition_options. rewrite Hs.
    unfold bind, lift, ret.
    rewrite (answer_at_position opts (definition_correct_answer term) k);
      [split; reflexivity| |exact Hnth].
    exact (Permutation_NoDup Hperm (definition_options_NoDup term)).
  - assert (Hunf : forall X (a b : X),
               match sentences with [] => a | _ :: _ => b end = b)
      by (intros; destruct sentences; [congruence|reflexivity]).
    destruct (choice_Returns tape tape_randbelow tape_randbelow_in_range
                (firstn 3 sentences) (0 :: places k))
      as (sentence & Hc & _ & _).
    { destruct sentences; [congruence|discriminate]. }
    unfold tape_randbelow in Hc at 2. cbn [snd] in Hc.
    destruct (shuffle_places (comprehension_correct_answer sentence)
                "The text primarily focuses on historical events"
                "The content is mainly theoretical without practical application"
                "The text contradicts established principles in the field"
                k Hk) as (opts & Hs & Hnth & Hperm).
    exists (0 :: places k). eexists; exists [].
    unfold create_comprehension_question. rewrite Hunf.
    unfold bind at 1. rewrite Hc.
    unfold bind at 1. unfold comprehension_options. rewrite Hs.
    unfold bind, lift, ret.
    rewrite (answer_at_position opts (comprehension_correct_answer sentence) k);
      [split; reflexivity| |exact Hnth].
    exact (Permutation_NoDup Hperm (comprehension_options_NoDup sentence)).
Qed.

(** ** The further statements at concrete inputs *)

Lemma main_subject_most_frequent_witness :
  extract_key_terms cats = "cats" :: ["nice"; "furry"; "animals"; "purr"]
  /\ extract_main_subject cats = "the concept of " ++ "cats"
  /\ forall w,
       In w (words_of cats) -> keep_word w = true ->
       frequency cats w <= frequency cats "cats"
       /\ (frequency cats w = frequency cats "cats" ->
           first_occurrence cats "cats" <= first_occurrence cats w).
Proof.
  split; [reflexivity|].
  exact (main_subject_most_frequent cats "cats"
           ["nice"; "furry"; "animals"; "purr"] eq_refl).
Defined.

Lemma dropped_terms_rank_last_witness :
  In "lima" (words_of twelve_words)
  /\ keep_word "lima" = true
  /\ ~ In "lima" (extract_key_terms twelve_words)
  /\ List.length (extract_key_terms twelve_words) = 10
  /\ forall t, In t (extract_key_terms twelve_words) ->
       frequency twelve_words "lima" <= frequency twelve_words t
       /\ (frequency twelve_words "lima" = frequency twelve_words t ->
           first_occurrence twelve_words t
           < first_occurrence twelve_words "lima").
Proof.
  assert (Hin : In "lima" (words_of twelve_words))
    by (vm_compute; repeat (first [left; reflexivity | right])).
  assert (Hout : ~ In "lima" (extract_key_terms twelve_words)).
  { vm_compute. intros H.
    repeat match goal with
      | H : _ \/ _ |- _ => destruct H as [H|H]
      | H : False |- _ => destruct H
      end; discriminate H. }
  split; [exact Hin|]. split; [reflexivity|]. split; [exact Hout|].
  exact (dropped_terms_rank_last twelve_words "lima" Hin eq_refl Hout).
Defined.

Lemma words_of_joined_witness :
  is_word " " = false
  /\ words_of ("Cats purr" ++ String " " "cats sleep")
     = (words_of "Cats purr" ++ words_of "cats sleep")%list
  /\ forall term,
       frequency ("Cats purr" ++ String " " "cats sleep") term
       = frequency "Cats purr" term + frequency "cats sleep" term.
Proof.
  split; [reflexivity|].
  exact (words_of_joined "Cats purr" "cats sleep" " " eq_refl).
Defined.

Lemma extract_sentences_joined_witness :
  is_terminator "!" = true
  /\ extract_sentences ("Cats are nice" ++ String "!" " Dogs are loyal")
     = (extract_sentences "Cats are nice"
        ++ extract_sentences " Dogs are loyal")%list.
Proof.
  split; [reflexivity|].
  exact (extract_sentences_joined "Cats are nice" " Dogs are loyal" "!"
           eq_refl).
Defined.

Lemma extract_sentences_fixed_witness :
  In "Cats are nice" (extract_sentences cats)
  /\ extract_sentences "Cats are nice" = ["Cats are nice"].
Proof.
  assert (Hin : In "Cats are nice" (extract_sentences cats))
    by (vm_compute; left; reflexivity).
  split; [exact Hin|].
  exact (extract_sentences_fixed cats "Cats are nice" Hin).
Defined.

Lemma generated_records_well_formed_witness :
  in_range tape_randbelow
  /\ exists quiz_questions g',
       generate_quiz_questions tape_randbelow cats [2; 1; 0; 1; 0; 3; 2; 1]
         = Returns (quiz_questions, g')
       /\ List.length quiz_questions = 3
       /\ Forall well_formed quiz_questions
       /\ forall q, In q quiz_questions ->
            exists option,
              nth_error (options q) (correct_answer q) = Some option
              /\ forall j, nth_error (options q) j = Some option ->
                           j = correct_answer q.
Proof.
  split; [exact tape_randbelow_in_range|].
  exact (generated_records_well_formed tape tape_randbelow
           tape_randbelow_in_range cats [2; 1; 0; 1; 0; 3; 2; 1]).
Defined.

Lemma correct_index_takes_every_position_witness :
  2 < 4
  /\ extract_key_terms cats <> []
  /\ exists (g : tape) q g',
       create_definition_question tape_randbelow
         (extract_sentences cats) (extract_key_terms cats) g
         = Returns (q, g')
       /\ correct_answer q = 2.
Proof.
  assert (Hk : 2 < 4) by lia.
  assert (Hne : extract_key_terms cats <> []) by (vm_compute; discriminate).
  split; [exact Hk|]. split; [exact Hne|].
  exact (proj1 (correct_index_takes_every_position
                  (extract_sentences cats) (extract_key_terms cats) 2 Hk)
               Hne).
Defined.
